(** * PestDetect: the IoT controller (src/iot_controller/actuator.py)

    A shallow embedding of the relay, motor and pest-management classes of
    [actuator.py], and the properties of the actuation core proved on it.

    Python objects are records passed explicitly; a method is a computation
    in a small monad that threads the object, may raise a Python exception,
    and emits the effects it has on the outside world (log records, GPIO
    calls, timers, sleeps, file opens) as an ordered list of events.
    Python [float]s are the kernel's binary64 floats, [int]s are [Z], and a
    [dict] is a [gmap]. *)

From Stdlib Require Import ZArith Floats.
From stdpp Require Import gmap strings list fin_maps.

(** ** Python values *)

(** The values that reach the controller through action dicts, detection
    events and JSON requests.  [VObj] stands for any other object (a list, a
    nested dict): the code only ever tests such an object for truth. *)
Inductive value :=
  | VNone
  | VBool (b : bool)
  | VInt (z : Z)
  | VFloat (f : float)
  | VStr (s : string)
  | VObj (truth : bool).

(** What sits in the action queue: a dict, or something that is not one. *)
Inductive pyobj :=
  | PDict (d : gmap string value)
  | PValue (v : value).

(** [bool(v)], as the [if duration:] test applies it. *)
Definition truthy (v : value) : bool :=
  match v with
  | VNone => false
  | VBool b => b
  | VInt z => negb (z =? 0)%Z
  | VFloat f => negb (f =? 0)%float
  | VStr s => negb (String.eqb s "")
  | VObj t => t
  end.

(** [v == 'literal'] for a string literal. *)
Definition eq_str (v : value) (lit : string) : bool :=
  match v with
  | VStr s => String.eqb s lit
  | _ => false
  end.

(** ** Exceptions, log records and events *)

Inductive exn :=
  | InvalidRelayPin (pin : Z)   (* ValueError(f"Invalid relay pin: {pin}") *)
  | AngleOutOfRange             (* ValueError("Angle must be between 0 and 180 degrees") *)
  | SleepValueError             (* ValueError of time.sleep: negative or NaN length *)
  | SleepOverflowError          (* OverflowError of time.sleep: length beyond 64 bits of ns *)
  | TypeError
  | OverflowError
  | AttributeError (attr : string)
  | NameError (name : string)
  | QueueEmpty                  (* queue.Empty *)
  | ExternalError (code : Z).   (* whatever a GPIO driver or the file system raises *)

Inductive log_level := INFO | WARNING | ERROR.

(** One constructor per format string of the module, with the values the
    f-string interpolates. *)
Inductive message :=
  | GpioSetupCompleted
  | GpioSetupFailed (e : exn)
  | RelayActivated (pin : Z)
  | ErrorActivatingRelay (pin : Z) (e : exn)
  | RelayDeactivated (pin : Z)
  | ErrorDeactivatingRelay (pin : Z) (e : exn)
  | GpioCleanupCompleted
  | GpioCleanupError (e : exn)
  | MovingStepper (steps direction : Z)
  | StepperCompleted (position : value)
  | ErrorMovingStepper (e : exn)
  | MovingServo (servo_id : Z) (angle : value)
  | ServoMoved (servo_id : Z) (angle : value)
  | ErrorMovingServo (e : exn)
  | StartedMonitoring (sensor_name : string)
  | SensorMonitoringStopped
  | ErrorLoadingConfig (e : exn)
  | AllControllersInitialized
  | ErrorInitializingControllers (e : exn)
  | SystemStarted
  | ErrorStartingSystem (e : exn)
  | SystemStopped
  | ErrorStoppingSystem (e : exn)
  | ErrorProcessingAction (e : exn)
  | UnknownActionType (action_type : value)
  | ErrorExecutingAction (action_type : value) (e : exn)
  | SprayingPesticide (duration : value)
  | ActivatingTrap (duration : value)
  | AdjustingCamera (angle : value)
  | EmergencyShutdownActivated
  | TriggeredPestResponse (pest_type : value) (confidence : float)
  | ErrorTriggeringPestResponse (e : exn).

Inductive gpio_level := LOW | HIGH.

Inductive gpio_call :=
  | Setmode
  | Setup (pin : Z)
  | Output (pin : Z) (lvl : gpio_level)
  | Cleanup.

(** The GPIO module handed to a relay controller is foreign code: all the
    embedding knows of it is which of its calls raise, and what. *)
Definition gpio_module := gpio_call → option exn.

Inductive event :=
  | Log (lvl : log_level) (msg : message)
  | Gpio (c : gpio_call)
  | TimerStart (interval : value) (pin : Z)   (* threading.Timer(interval, deactivate pin).start() *)
  | Sleep (secs : float)
  | ThreadStart (name : string)
  | Open (path : string).

(** ** The monad of methods *)

Inductive outcome (A : Type) :=
  | Ret (a : A)
  | Raise (e : exn).
Arguments Ret {A} a.
Arguments Raise {A} e.

(** A method body on an object of type [S]: the outcome, the object as the
    body leaves it (mutations made before a raise persist), and the events
    in the order they happened. *)
Definition M (S A : Type) : Type := S → outcome A * S * list event.

#[global] Instance M_ret {S} : MRet (M S) := λ A a s, (Ret a, s, []).

#[global] Instance M_bind {S} : MBind (M S) := λ A B k m s,
  match m s with
  | (Ret a, s', ev) => let '(r, s'', ev') := k a s' in (r, s'', ev ++ ev')
  | (Raise e, s', ev) => (Raise e, s', ev)
  end.

Definition get {S} : M S S := λ s, (Ret s, s, []).
Definition modify {S} (f : S → S) : M S unit := λ s, (Ret tt, f s, []).
Definition raise {S A} (e : exn) : M S A := λ s, (Raise e, s, []).
Definition emit {S} (ev : event) : M S unit := λ s, (Ret tt, s, [ev]).
Definition log {S} (lvl : log_level) (msg : message) : M S unit := emit (Log lvl msg).

(** [try: body  except Exception as e: handler e] *)
Definition try_except {S A} (body : M S A) (handler : exn → M S A) : M S A := λ s,
  match body s with
  | (Ret a, s', ev) => (Ret a, s', ev)
  | (Raise e, s', ev) => let '(r, s'', ev') := handler e s' in (r, s'', ev ++ ev')
  end.

(** [if c: body] *)
Definition when {S} (c : bool) (body : M S unit) : M S unit :=
  if c then body else mret tt.

(** [for x in xs: body x] *)
Fixpoint for_each {S A} (xs : list A) (body : A → M S unit) : M S unit :=
  match xs with
  | [] => mret tt
  | x :: xs' => body x;; for_each xs' body
  end.

(** Running a method of a sub-object held in a field of [S]. *)
Definition on_field {S T A} (proj : S → T) (upd : T → S → S) (m : M T A) : M S A := λ s,
  let '(r, t', ev) := m (proj s) in (r, upd t' s, ev).

(** Building an object: [init] is the fresh object, [body] the rest of its
    [__init__]; the caller gets the object unless [body] raises. *)
Definition new {S T} (init : T) (body : M T unit) : M S T := λ s,
  match body init with
  | (Ret _, obj, ev) => (Ret obj, s, ev)
  | (Raise e, _, ev) => (Raise e, s, ev)
  end.

(** The count of nanoseconds [time.sleep] makes of its length: [secs * 1e9],
    computed in double. *)
Definition sleep_ns (secs : float) : float := (secs * 0x1.dcd65p+29)%float.

(** The count leaves the signed 64 bits it is held in. *)
Definition sleep_overflows (secs : float) : bool :=
  (sleep_ns secs <? -0x1p+63)%float || (0x1p+63 <? sleep_ns secs)%float.

(** [time.sleep(secs)] on a float, as CPython runs it.  The length is
    first converted to a count of nanoseconds held in a signed 64-bit
    integer: [secs * 1e9] is computed in double, rounded away from zero to
    an integer, and checked against the bounds of the count.  A NaN length
    is a ValueError; a product beyond the bounds, as for infinity or 1e10
    seconds of either sign, is an OverflowError; a negative count is a
    ValueError; otherwise the caller is suspended for [secs] and resumes.

    The checks are made here on the product itself: a double of magnitude
    2^52 or more is an integer, so the rounding never moves the product
    across the bounds, and rounding away from zero keeps the count of a
    negative length negative.

    Two things are left to the platform and are not followed here: the
    cast of a product of exactly 2^63, and what the operating system does
    with a deadline (its clock's reading plus the count) that leaves the
    range of its own clock.  Both concern only lengths of more than 2^62 ns
    (146 years) that do not overflow; for these the embedding sleeps, and
    no property below rests on what it does there. *)
Definition time_sleep {S} (secs : float) : M S unit :=
  if is_nan secs then raise SleepValueError
  else if sleep_overflows secs then raise SleepOverflowError
  else if (secs <? 0)%float then raise SleepValueError
  else emit (Sleep secs).

(** ** RelayController *)

Module RelayController.

Record t := mk {
  relay_pins : list Z;
  gpio : option gpio_module;
  relay_states : gmap Z bool
}.

Definition set_relay_states (f : gmap Z bool → gmap Z bool) (self : t) : t :=
  mk (relay_pins self) (gpio self) (f (relay_states self)).

(** [self.gpio.call(...)], under [if self.gpio:]. *)
Definition if_gpio (calls : gpio_module → M t unit) : M t unit :=
  self ← get;
  match gpio self with
  | Some g => calls g
  | None => mret tt
  end.

Definition call (g : gpio_module) (c : gpio_call) : M t unit :=
  emit (Gpio c);;
  match g c with
  | Some e => raise e
  | None => mret tt
  end.

Definition setup_gpio : M t unit :=
  try_except
    (if_gpio (λ g,
       call g Setmode;;
       self ← get;
       for_each (relay_pins self) (λ pin,
         call g (Setup pin);;
         call g (Output pin HIGH));;   (* relays are active LOW *)
       log INFO GpioSetupCompleted))
    (λ e, log ERROR (GpioSetupFailed e)).

(** [{pin: False for pin in relay_pins}] *)
Definition all_off (pins : list Z) : gmap Z bool :=
  list_to_map ((λ pin, (pin, false)) <$> pins).

Definition __init__ {S} (relay_pins : list Z) (gpio_module : option gpio_module) : M S t :=
  new (mk relay_pins gpio_module (all_off relay_pins)) setup_gpio.

Definition activate_relay (pin : Z) (duration : value) : M t unit :=
  try_except
    (self ← get;
     when (negb (bool_decide (pin ∈ relay_pins self)))
       (raise (InvalidRelayPin pin));;
     if_gpio (λ g, call g (Output pin LOW));;
     modify (set_relay_states <[pin := true]>);;
     log INFO (RelayActivated pin);;
     when (truthy duration)
       (emit (TimerStart duration pin)))
    (λ e, log ERROR (ErrorActivatingRelay pin e)).

Definition deactivate_relay (pin : Z) : M t unit :=
  try_except
    (self ← get;
     when (negb (bool_decide (pin ∈ relay_pins self)))
       (raise (InvalidRelayPin pin));;
     if_gpio (λ g, call g (Output pin HIGH));;
     modify (set_relay_states <[pin := false]>);;
     log INFO (RelayDeactivated pin))
    (λ e, log ERROR (ErrorDeactivatingRelay pin e)).

Definition get_relay_state (self : t) (pin : Z) : bool :=
  default false (relay_states self !! pin).

Definition cleanup : M t unit :=
  try_except
    (if_gpio (λ g,
       self ← get;
       for_each (relay_pins self) (λ pin, call g (Output pin HIGH));;
       call g Cleanup);;
     log INFO GpioCleanupCompleted)
    (λ e, log ERROR (GpioCleanupError e)).

End RelayController.

(** ** Python arithmetic and comparison on values *)



(** [0 <= angle <= 180]: the chained comparison against two int literals
    (both exact as doubles), a TypeError on a non-number. *)
Definition angle_in_range (angle : value) : outcome bool :=
  match angle with
  | VInt z => Ret ((0 <=? z)%Z && (z <=? 180)%Z)
  | VBool b => Ret ((0 <=? Z.b2z b)%Z && (Z.b2z b <=? 180)%Z)
  | VFloat f => Ret ((0 <=? f)%float && (f <=? 180)%float)
  | VNone | VStr _ | VObj _ => Raise TypeError
  end.

Definition lift_outcome {S A} (r : outcome A) : M S A := λ s, (r, s, []).

(** ** MotorController *)

Module MotorController.

Record t := mk {
  motor_pins : gmap string (list Z);
  motor_type : string;
  current_position : value;
  is_moving : bool
}.

Definition set_current_position (v : value) (self : t) : t :=
  mk (motor_pins self) (motor_type self) v (is_moving self).


(** [motor_type] defaults to "stepper". *)
Definition __init__ (motor_pins : gmap string (list Z)) (motor_type : string) : t :=
  mk motor_pins motor_type (VInt 0) false.




Definition move_servo (angle : value) (servo_id : Z) : M t unit :=
  try_except
    (ok ← lift_outcome (angle_in_range angle);
     when (negb ok) (raise AngleOutOfRange);;
     log INFO (MovingServo servo_id angle);;
     modify (set_current_position angle);;
     time_sleep 0x1.999999999999ap-4;;   (* 0.1 *)
     log INFO (ServoMoved servo_id angle))
    (λ e, log ERROR (ErrorMovingServo e)).

Definition get_position (self : t) : value := current_position self.



End MotorController.

(** ** SensorController *)

Module SensorController.

Record config := mk_config {
  type : string;
  unit : string;
  interval : Z
}.

(** Only the part of the object the actuation core touches: the
    configuration and the [running] flag its polling threads watch. *)
Record t := mk {
  sensor_configs : list (string * config);
  running : bool
}.

Definition set_running (b : bool) (self : t) : t :=
  mk (sensor_configs self) b.

Definition __init__ (sensor_configs : list (string * config)) : t :=
  mk sensor_configs false.

Definition start_sensor_monitoring : M t Datatypes.unit :=
  modify (set_running true);;
  self ← get;
  for_each (sensor_configs self) (λ '(sensor_name, _),
    emit (ThreadStart sensor_name);;
    log INFO (StartedMonitoring sensor_name)).

Definition stop_sensor_monitoring : M t Datatypes.unit :=
  modify (set_running false);;
  log INFO SensorMonitoringStopped.

End SensorController.

(** ** Configuration *)

Module Config.

Record thresholds := mk_thresholds {
  high_risk : float;
  medium_risk : float;
  low_risk : float
}.

Record t := mk {
  relay_pins : list Z;
  motor_pins : gmap string (list Z);
  sensors : list (string * SensorController.config);
  pest_thresholds : thresholds
}.

(** The top-level keys a user's JSON object sets, each with a value of the
    shape the default has. *)
Record user := mk_user {
  user_relay_pins : option (list Z);
  user_motor_pins : option (gmap string (list Z));
  user_sensors : option (list (string * SensorController.config));
  user_pest_thresholds : option thresholds
}.

(** [default_config.update(user_config)]: a key the user gives replaces
    the default entry whole. *)
Definition update (c : t) (u : user) : t :=
  mk (default (relay_pins c) (user_relay_pins u))
     (default (motor_pins c) (user_motor_pins u))
     (default (sensors c) (user_sensors u))
     (default (pest_thresholds c) (user_pest_thresholds u)).

End Config.

(** A path names no file, a file that fails to open or to parse as a JSON
    object (with the exception that raises), or a JSON object. *)
Inductive file :=
  | Unreadable (e : exn)
  | Json (user_config : Config.user).

Definition filesystem := string → option file.

(** The names bound at module level when a method runs: the imports of
    lines 6 to 12, [logger], and the module's own classes and [main]. *)
Definition module_globals : list string :=
  ["time"; "logging"; "json"; "datetime";
   "Dict"; "List"; "Optional"; "Tuple";
   "threading"; "queue"; "logger";
   "RelayController"; "MotorController"; "SensorController";
   "PestManagementSystem"; "main"].

(** Evaluating a global name that is no builtin: a NameError when the
    module binds nothing to it. *)
Definition global_name {S} (globals : list string) (name : string) : M S unit :=
  when (negb (bool_decide (name ∈ globals))) (raise (NameError name)).

(** ** PestManagementSystem *)

(** [d.get(key, default)] *)
Definition dict_get (d : gmap string value) (key : string) (dflt : value) : value :=
  default dflt (d !! key).

(** [action.get(key, default)] on whatever was queued: only a dict has
    the method. *)
Definition obj_get {S} (action : pyobj) (key : string) (dflt : value) : M S value :=
  match action with
  | PDict d => mret (dict_get d key dflt)
  | PValue _ => raise (AttributeError "get")
  end.

Module PestManagementSystem.

Record t := mk {
  config : Config.t;
  relay_controller : RelayController.t;
  motor_controller : MotorController.t;
  sensor_controller : SensorController.t;
  action_queue : list pyobj;
  is_running : bool
}.

Definition set_relay_controller (rc : RelayController.t) (self : t) : t :=
  mk (config self) rc (motor_controller self) (sensor_controller self)
     (action_queue self) (is_running self).

Definition set_motor_controller (mc : MotorController.t) (self : t) : t :=
  mk (config self) (relay_controller self) mc (sensor_controller self)
     (action_queue self) (is_running self).

Definition set_sensor_controller (sc : SensorController.t) (self : t) : t :=
  mk (config self) (relay_controller self) (motor_controller self) sc
     (action_queue self) (is_running self).

Definition set_action_queue (q : list pyobj) (self : t) : t :=
  mk (config self) (relay_controller self) (motor_controller self)
     (sensor_controller self) q (is_running self).

Definition set_is_running (b : bool) (self : t) : t :=
  mk (config self) (relay_controller self) (motor_controller self)
     (sensor_controller self) (action_queue self) b.

(** [self.relay_controller.m(...)] and the like. *)
Definition relay {A} (m : M RelayController.t A) : M t A :=
  on_field relay_controller set_relay_controller m.
Definition motor {A} (m : M MotorController.t A) : M t A :=
  on_field motor_controller set_motor_controller m.
Definition sensor {A} (m : M SensorController.t A) : M t A :=
  on_field sensor_controller set_sensor_controller m.

Definition default_config : Config.t :=
  Config.mk
    [18; 19; 20; 21]%Z
    {[ "stepper" := [14; 15; 16; 17]%Z ]}
    [("temperature", SensorController.mk_config "temperature" "°C" 5);
     ("humidity", SensorController.mk_config "humidity" "%" 5);
     ("soil_moisture", SensorController.mk_config "soil_moisture" "%" 10);
     ("light", SensorController.mk_config "light" "lux" 5)]
    (Config.mk_thresholds
       0x1.999999999999ap-1     (* 0.8 *)
       0x1p-1                   (* 0.5 *)
       0x1.3333333333333p-2).   (* 0.3 *)

(** [config_file and ...]: None and the empty string are false. *)
Definition given (config_file : option string) : option string :=
  match config_file with
  | Some path => if String.eqb path "" then None else Some path
  | None => None
  end.

(** [_load_config], run with the module-level names [globals] and the
    files [fs]. *)
Definition _load_config {S} (globals : list string) (fs : filesystem)
    (config_file : option string) : M S Config.t :=
  match given config_file with
  | None => mret default_config
  | Some path =>
      global_name globals "os";;           (* os.path.exists(config_file) *)
      match fs path with
      | None => mret default_config
      | Some f =>
          try_except
            (emit (Open path);;
             match f with
             | Json user_config => mret (Config.update default_config user_config)
             | Unreadable e => raise e
             end)
            (λ e,
             log ERROR (ErrorLoadingConfig e);;
             mret default_config)
      end
  end.

Definition _initialize_controllers {S} (config : Config.t)
    : M S (RelayController.t * MotorController.t * SensorController.t) :=
  try_except
    (rc ← RelayController.__init__ (Config.relay_pins config) None;
     let mc := MotorController.__init__ (Config.motor_pins config) "stepper" in
     let sc := SensorController.__init__ (Config.sensors config) in
     log INFO AllControllersInitialized;;
     mret (rc, mc, sc))
    (λ e,
     log ERROR (ErrorInitializingControllers e);;
     raise e).

Definition __init__ {S} (globals : list string) (fs : filesystem)
    (config_file : option string) : M S t :=
  config ← _load_config globals fs config_file;
  '(rc, mc, sc) ← _initialize_controllers config;
  mret (mk config rc mc sc [] false).

Definition start_system : M t unit :=
  try_except
    (modify (set_is_running true);;
     sensor SensorController.start_sensor_monitoring;;
     emit (ThreadStart "_process_actions");;
     log INFO SystemStarted)
    (λ e,
     log ERROR (ErrorStartingSystem e);;
     raise e).

Definition stop_system : M t unit :=
  try_except
    (modify (set_is_running false);;
     sensor SensorController.stop_sensor_monitoring;;
     relay RelayController.cleanup;;
     log INFO SystemStopped)
    (λ e, log ERROR (ErrorStoppingSystem e)).

Definition _spray_pesticide (duration : value) : M t unit :=
  log INFO (SprayingPesticide duration);;
  relay (RelayController.activate_relay 0 duration).   (* Relay 0 controls pump *)

Definition _activate_trap (duration : value) : M t unit :=
  log INFO (ActivatingTrap duration);;
  relay (RelayController.activate_relay 1 duration).   (* Relay 1 controls trap *)

Definition _adjust_camera (angle : value) : M t unit :=
  log INFO (AdjustingCamera angle);;
  motor (MotorController.move_servo angle 0).

Definition _emergency_shutdown : M t unit :=
  log WARNING EmergencyShutdownActivated;;
  self ← get;
  for_each (Config.relay_pins (config self)) (λ pin,
    relay (RelayController.deactivate_relay pin));;
  stop_system.

Definition _execute_action (action : pyobj) : M t unit :=
  action_type ← obj_get action "type" VNone;
  try_except
    (if eq_str action_type "spray_pesticide" then
       duration ← obj_get action "duration" (VInt 5);
       _spray_pesticide duration
     else if eq_str action_type "activate_trap" then
       duration ← obj_get action "duration" (VInt 30);
       _activate_trap duration
     else if eq_str action_type "adjust_camera" then
       angle ← obj_get action "angle" (VInt 90);
       _adjust_camera angle
     else if eq_str action_type "emergency_shutdown" then
       _emergency_shutdown
     else
       log WARNING (UnknownActionType action_type))
    (λ e, log ERROR (ErrorExecutingAction action_type e)).

(** [self.action_queue.get(timeout=1)] with no producer running: the
    head of the queue, or queue.Empty once the wait has timed out. *)
Definition queue_get : M t pyobj :=
  self ← get;
  match action_queue self with
  | action :: rest => modify (set_action_queue rest);; mret action
  | [] => raise QueueEmpty
  end.

(** One turn of the [while self.is_running] loop of [_process_actions]. *)
Definition turn : M t unit :=
  try_except
    (action ← queue_get;
     _execute_action action)
    (λ e,
     match e with
     | QueueEmpty => mret tt                         (* continue *)
     | _ => log ERROR (ErrorProcessingAction e)
     end).

(** [_process_actions], followed for at most [fuel] turns of its loop. *)
Fixpoint _process_actions (fuel : nat) : M t unit :=
  match fuel with
  | O => mret tt
  | S fuel' =>
      self ← get;
      if is_running self then turn;; _process_actions fuel' else mret tt
  end.

Definition add_action (action : pyobj) : M t unit :=
  modify (λ self, set_action_queue (action_queue self ++ [action]) self).

Definition trigger_pest_response (pest_type : value) (confidence : float)
    (location : value * value) : M t unit :=
  try_except
    (self ← get;
     let thresholds := Config.pest_thresholds (config self) in
     let actions :=
       if (Config.high_risk thresholds <=? confidence)%float then
         (* High risk - immediate response *)
         [PDict {[ "type" := VStr "spray_pesticide"; "duration" := VInt 10 ]};
          PDict {[ "type" := VStr "activate_trap"; "duration" := VInt 60 ]}]
       else if (Config.medium_risk thresholds <=? confidence)%float then
         (* Medium risk - moderate response *)
         [PDict {[ "type" := VStr "spray_pesticide"; "duration" := VInt 5 ]};
          PDict {[ "type" := VStr "activate_trap"; "duration" := VInt 30 ]}]
       else
         (* Low risk - minimal response *)
         [PDict {[ "type" := VStr "activate_trap"; "duration" := VInt 15 ]}]
     in
     for_each actions add_action;;
     log INFO (TriggeredPestResponse pest_type confidence))
    (λ e, log ERROR (ErrorTriggeringPestResponse e)).

End PestManagementSystem.

(** ** What the properties are stated with *)

(** The outcome, the object and the events of a run. *)
Definition result {S A} (x : outcome A * S * list event) : outcome A := x.1.1.
Definition after {S A} (x : outcome A * S * list event) : S := x.1.2.
Definition events {S A} (x : outcome A * S * list event) : list event := x.2.

(** A run that comes after the events [ev]. *)
Definition prefixed {S A} (ev : list event) (x : outcome A * S * list event)
    : outcome A * S * list event :=
  (result x, after x, ev ++ events x).

(** [m] returns to its caller whatever the object: no exception leaves it. *)
Definition returns {S A} (m : M S A) : Prop :=
  ∀ s, ∃ a, result (m s) = Ret a.

(** [m] leaves the part [f] of the object as it found it. *)
Definition keeps {S A B} (f : S → B) (m : M S A) : Prop :=
  ∀ s, f (after (m s)) = f s.

(** The invariant of a relay controller: its state dict has one entry per
    configured pin and no other. *)
Definition relay_wf (self : RelayController.t) : Prop :=
  ∀ pin, is_Some (RelayController.relay_states self !! pin)
         ↔ pin ∈ RelayController.relay_pins self.

(** The controllers a program can hold: built by [__init__], then driven
    through the public methods (a timer that fires calls
    [deactivate_relay]). *)
Inductive relay_reachable : RelayController.t → Prop :=
  | reach_init pins gpio_module rc ev :
      RelayController.__init__ pins gpio_module tt = (Ret rc, tt, ev) →
      relay_reachable rc
  | reach_activate rc pin duration :
      relay_reachable rc →
      relay_reachable (after (RelayController.activate_relay pin duration rc))
  | reach_deactivate rc pin :
      relay_reachable rc →
      relay_reachable (after (RelayController.deactivate_relay pin rc))
  | reach_cleanup rc :
      relay_reachable rc →
      relay_reachable (after (RelayController.cleanup rc)).

(** The controller has no GPIO module, or the module takes the call [c]
    without raising. *)
Definition driver_accepts (self : RelayController.t) (c : gpio_call) : Prop :=
  ∀ g, RelayController.gpio self = Some g → g c = None.

(** The risk tier [trigger_pest_response] assigns to a confidence: the
    branch of lines 457 to 473 it takes, named as the branch's comment
    names it. *)
Inductive RiskTier := low | medium | high.

Definition classify (thresholds : Config.thresholds) (confidence : float) : RiskTier :=
  if (Config.high_risk thresholds <=? confidence)%float then high
  else if (Config.medium_risk thresholds <=? confidence)%float then medium
  else low.

(** The order low < medium < high. *)
Definition tier_rank (tier : RiskTier) : nat :=
  match tier with low => 0 | medium => 1 | high => 2 end.

Definition tier_le (t1 t2 : RiskTier) : Prop := tier_rank t1 ≤ tier_rank t2.

(** The action dicts of the three branches. *)
Definition spray_pesticide (duration : Z) : pyobj :=
  PDict {[ "type" := VStr "spray_pesticide"; "duration" := VInt duration ]}.
Definition activate_trap (duration : Z) : pyobj :=
  PDict {[ "type" := VStr "activate_trap"; "duration" := VInt duration ]}.

Definition bundle (tier : RiskTier) : list pyobj :=
  match tier with
  | high => [spray_pesticide 10; activate_trap 60]
  | medium => [spray_pesticide 5; activate_trap 30]
  | low => [activate_trap 15]
  end.

(** The same system with another [low_risk] threshold configured. *)
Definition with_low_risk (low_risk : float) (self : PestManagementSystem.t)
    : PestManagementSystem.t :=
  let c := PestManagementSystem.config self in
  let th := Config.pest_thresholds c in
  PestManagementSystem.mk
    (Config.mk (Config.relay_pins c) (Config.motor_pins c) (Config.sensors c)
       (Config.mk_thresholds (Config.high_risk th) (Config.medium_risk th) low_risk))
    (PestManagementSystem.relay_controller self)
    (PestManagementSystem.motor_controller self)
    (PestManagementSystem.sensor_controller self)
    (PestManagementSystem.action_queue self)
    (PestManagementSystem.is_running self).

(** The four kinds [_execute_action] knows. *)
Definition known_kind (action_type : value) : bool :=
  eq_str action_type "spray_pesticide" || eq_str action_type "activate_trap"
  || eq_str action_type "adjust_camera" || eq_str action_type "emergency_shutdown".

(** The order of two finite doubles of one sign, as [SFcompare] reads it
    off exponent and mantissa. *)
Definition lex (e1 : Z) (m1 : positive) (e2 : Z) (m2 : positive) : comparison :=
  match (e1 ?= e2)%Z with
  | Lt => Lt
  | Gt => Gt
  | Eq => Pos.compare_cont Eq m1 m2
  end.

(** The system the program's [main] builds: no configuration file. *)
Definition no_files : filesystem := λ _, None.

Definition fresh_relays : RelayController.t :=
  RelayController.mk [18; 19; 20; 21]%Z None
    (RelayController.all_off [18; 19; 20; 21]%Z).

Definition fresh_system : PestManagementSystem.t :=
  PestManagementSystem.mk PestManagementSystem.default_config
    fresh_relays
    (MotorController.__init__ {[ "stepper" := [14; 15; 16; 17]%Z ]} "stepper")
    (SensorController.__init__
       (Config.sensors PestManagementSystem.default_config))
    [] false.

(** A started system with [queue] waiting for its worker. *)
Definition running_system (queue : list pyobj) : PestManagementSystem.t :=
  PestManagementSystem.set_is_running true
    (PestManagementSystem.set_action_queue queue fresh_system).

(** ** What the further properties are stated with *)

(** [m] keeps the property [P] of the object. *)
Definition preserves {S A} (P : S → Prop) (m : M S A) : Prop :=
  ∀ s, P s → P (after (m s)).

(** The timers among some events. *)
Definition timers (ev : list event) : list (value * Z) :=
  omap (λ e, match e with TimerStart d pin => Some (d, pin) | _ => None end) ev.

(** The GPIO calls among some events. *)
Definition gpio_calls (ev : list event) : list gpio_call :=
  omap (λ e, match e with Gpio c => Some c | _ => None end) ev.

(** A relay controller as a pest-management system holds it: the pins
    [pins], no GPIO module, one state per pin. *)
Definition relay_inv (pins : list Z) (rc : RelayController.t) : Prop :=
  RelayController.relay_pins rc = pins
  ∧ RelayController.gpio rc = None
  ∧ relay_wf rc.

Definition system_wf (self : PestManagementSystem.t) : Prop :=
  relay_inv (Config.relay_pins (PestManagementSystem.config self))
    (PestManagementSystem.relay_controller self).

(** The systems a program can hold: built by [__init__] (with whatever
    module-level names and files), then driven through the public methods
    and the turns of the worker. *)
Inductive system_reachable : PestManagementSystem.t → Prop :=
  | sys_init globals fs config_file self ev :
      PestManagementSystem.__init__ globals fs config_file tt = (Ret self, tt, ev) →
      system_reachable self
  | sys_start self :
      system_reachable self →
      system_reachable (after (PestManagementSystem.start_system self))
  | sys_stop self :
      system_reachable self →
      system_reachable (after (PestManagementSystem.stop_system self))
  | sys_add_action self action :
      system_reachable self →
      system_reachable (after (PestManagementSystem.add_action action self))
  | sys_trigger self pest_type confidence location :
      system_reachable self →
      system_reachable
        (after (PestManagementSystem.trigger_pest_response
                  pest_type confidence location self))
  | sys_turn self :
      system_reachable self →
      system_reachable (after (PestManagementSystem.turn self)).

(** An action that is not an emergency shutdown. *)
Definition not_shutdown (action : pyobj) : Prop :=
  match action with
  | PDict d => eq_str (dict_get d "type" VNone) "emergency_shutdown" = false
  | PValue _ => True
  end.

(** ** PestManagementSystem.get_system_status *)

(** The status dict.  The readings of the sensor controller and the clock
    are not part of the system record above; the status takes them as
    they are when it is asked for. *)
Record system_status := mk_status {
  status_is_running : bool;
  status_relay_states : gmap Z bool;
  status_motor_position : value;
  status_sensor_data : gmap string (gmap string value);
  status_timestamp : string
}.

(** [{pin: self.relay_controller.get_relay_state(pin) for pin in pins}] *)
Definition relay_report (rc : RelayController.t) (pins : list Z) : gmap Z bool :=
  foldl (λ report pin, <[pin := RelayController.get_relay_state rc pin]> report) ∅ pins.

Definition get_system_status (self : PestManagementSystem.t)
    (sensor_data : gmap string (gmap string value)) (now : string) : system_status :=
  mk_status
    (PestManagementSystem.is_running self)
    (relay_report (PestManagementSystem.relay_controller self)
       (Config.relay_pins (PestManagementSystem.config self)))
    (MotorController.get_position (PestManagementSystem.motor_controller self))
    sensor_data
    now.

(** ** The dashboard backend (src/web_dashboard/backend/main.py) *)

Module Dashboard.

(** [l[start:]] for an int [start], as Python slices a list: a negative
    start counts from the end, and a start outside the list is clipped. *)
Definition slice_from {A} (start : Z) (l : list A) : list A :=
  let len := Z.of_nat (length l) in
  let start := if (start <? 0)%Z then Z.max (start + len) 0 else Z.min start len in
  drop (Z.to_nat start) l.

(** The bookkeeping of [detect_pests]: append the entry, then drop the
    oldest one once more than 100 are held. *)
Definition record_detection {A} (entry : A) (detection_history : list A) : list A :=
  let detection_history := detection_history ++ [entry] in
  if (100 <? Z.of_nat (length detection_history))%Z
  then drop 1 detection_history      (* detection_history.pop(0) *)
  else detection_history.

(** [get_detections(limit)]: the entries returned and the total. *)
Definition get_detections {A} (limit : Z) (detection_history : list A) : list A * nat :=
  (slice_from (- limit) detection_history, length detection_history).

(** [list.remove(x)]: the first element equal to [x] goes.  (Python raises
    ValueError when there is none; the loop below only removes what it has
    just read from the list.) *)
Fixpoint list_remove `{EqDecision A} (x : A) (l : list A) : list A :=
  match l with
  | [] => []
  | y :: l' => if decide (x = y) then l' else y :: list_remove x l'
  end.

(** [ConnectionManager.broadcast], with no other task touching the list
    meanwhile: the [for] loop reads the list by position while its body
    removes from the same list every connection whose [send_text] raises
    ([delivers] tells which sends go through).  [i] is the position of the
    iterator; [fuel] bounds the turns of the loop.  The result is the list
    as the loop leaves it, and the connections [send_text] was called on,
    in the order of the calls. *)
Fixpoint broadcast_loop `{EqDecision A} (delivers : A → bool) (fuel i : nat)
    (active_connections : list A) : list A * list A :=
  match fuel with
  | O => (active_connections, [])
  | S fuel' =>
      match active_connections !! i with
      | None => (active_connections, [])
      | Some connection =>
          let '(remaining, sent) :=
            if delivers connection
            then broadcast_loop delivers fuel' (S i) active_connections
            else broadcast_loop delivers fuel' (S i)
                   (list_remove connection active_connections) in
          (remaining, connection :: sent)
      end
  end.

Definition broadcast `{EqDecision A} (delivers : A → bool)
    (active_connections : list A) : list A * list A :=
  broadcast_loop delivers (length active_connections) 0 active_connections.

(** What a broadcast leaves of a list of distinct connections: a dead
    connection is dropped, and the one behind it is stepped over. *)
Fixpoint swept {A} (delivers : A → bool) (l : list A) : list A :=
  match l with
  | [] => []
  | x :: l' =>
      if delivers x then x :: swept delivers l'
      else match l' with
           | [] => []
           | y :: l'' => y :: swept delivers l''
           end
  end.

(** The connections such a broadcast calls [send_text] on. *)
Fixpoint visited {A} (delivers : A → bool) (l : list A) : list A :=
  match l with
  | [] => []
  | x :: l' =>
      x :: if delivers x then visited delivers l'
           else match l' with
                | [] => []
                | _ :: l'' => visited delivers l''
                end
  end.

End Dashboard.


(** * Properties *)

(** ** Running the monad *)

Section run.
Context {S : Type}.

Lemma run_bind {A B} (m : M S A) (k : A → M S B) s :
  (m ≫= k) s =
  match m s with
  | (Ret a, s', ev) => let '(r, s'', ev') := k a s' in (r, s'', ev ++ ev')
  | (Raise e, s', ev) => (Raise e, s', ev)
  end.
Proof. done. Qed.

Lemma run_bind_ret {A B} (m : M S A) (k : A → M S B) s a s' ev :
  m s = (Ret a, s', ev) →
  (m ≫= k) s = (result (k a s'), after (k a s'), ev ++ events (k a s')).
Proof. rewrite run_bind. intros ->. by destruct (k a s') as [[??]?]. Qed.

(** *** Methods that never let an exception out *)

Lemma returns_ret {A} (a : A) : returns (mret a : M S A).
Proof. intros s. by exists a. Qed.

Lemma returns_bind {A B} (m : M S A) (k : A → M S B) :
  returns m → (∀ a, returns (k a)) → returns (m ≫= k).
Proof.
  intros Hm Hk s. rewrite run_bind. destruct (Hm s) as [a Ha].
  destruct (m s) as [[r s'] ev]. cbv in Ha. subst r.
  destruct (Hk a s') as [b Hb]. destruct (k a s') as [[r' s''] ev'].
  by exists b.
Qed.

Lemma returns_get : returns (get : M S S).
Proof. intros s. by exists s. Qed.

Lemma returns_modify f : returns (modify f : M S unit).
Proof. intros s. by exists tt. Qed.

Lemma returns_emit e : returns (emit e : M S unit).
Proof. intros s. by exists tt. Qed.

Lemma returns_log lvl msg : returns (log lvl msg : M S unit).
Proof. apply returns_emit. Qed.

Lemma returns_when c (m : M S unit) : returns m → returns (when c m).
Proof. destruct c; [done | intros _; apply returns_ret]. Qed.

Lemma returns_for_each {A} (xs : list A) (body : A → M S unit) :
  (∀ x, returns (body x)) → returns (for_each xs body).
Proof.
  intros Hb. induction xs as [| x xs IH]; simpl.
  - apply returns_ret.
  - apply returns_bind; auto.
Qed.

(** Whatever the body does, a handler that returns makes the whole
    [try] return. *)
Lemma returns_try_except {A} (body : M S A) handler :
  (∀ e, returns (handler e)) → returns (try_except body handler).
Proof.
  intros Hh s. unfold try_except. destruct (body s) as [[[a | e] s'] ev].
  - by exists a.
  - destruct (Hh e s') as [a Ha]. destruct (handler e s') as [[r s''] ev'].
    by exists a.
Qed.

Lemma returns_on_field {T A} (proj : S → T) upd (m : M T A) :
  returns m → returns (on_field proj upd m).
Proof.
  intros Hm s. unfold on_field. destruct (Hm (proj s)) as [a Ha].
  destruct (m (proj s)) as [[r t'] ev]. by exists a.
Qed.

(** *** Methods that leave a part of the object alone *)

Section keeps.
Context {B : Type} (f : S → B).

Lemma keeps_ret {A} (a : A) : keeps f (mret a : M S A).
Proof. done. Qed.

Lemma keeps_bind {A C} (m : M S A) (k : A → M S C) :
  keeps f m → (∀ a, keeps f (k a)) → keeps f (m ≫= k).
Proof.
  intros Hm Hk s. rewrite run_bind. specialize (Hm s).
  destruct (m s) as [[[a | e] s'] ev]; [| done].
  specialize (Hk a s'). destruct (k a s') as [[r s''] ev'].
  unfold after in *; simpl in *. congruence.
Qed.

Lemma keeps_bind_ret {A C} (a : A) (k : A → M S C) :
  keeps f (k a) → keeps f (mret a ≫= k).
Proof.
  intros Hk s. rewrite run_bind. specialize (Hk s). simpl.
  by destruct (k a s) as [[r s'] ev].
Qed.

Lemma keeps_get : keeps f (get : M S S).
Proof. done. Qed.

Lemma keeps_raise {A} e : keeps f (raise e : M S A).
Proof. done. Qed.

Lemma keeps_emit e : keeps f (emit e : M S unit).
Proof. done. Qed.

Lemma keeps_log lvl msg : keeps f (log lvl msg : M S unit).
Proof. done. Qed.

Lemma keeps_modify g : (∀ s, f (g s) = f s) → keeps f (modify g : M S unit).
Proof. intros Hg s. apply Hg. Qed.

Lemma keeps_when c (m : M S unit) : keeps f m → keeps f (when c m).
Proof. by destruct c. Qed.

Lemma keeps_for_each {A} (xs : list A) (body : A → M S unit) :
  (∀ x, keeps f (body x)) → keeps f (for_each xs body).
Proof.
  intros Hb. induction xs as [| x xs IH]; simpl.
  - apply keeps_ret.
  - apply keeps_bind; auto.
Qed.

Lemma keeps_try_except {A} (body : M S A) handler :
  keeps f body → (∀ e, keeps f (handler e)) → keeps f (try_except body handler).
Proof.
  intros Hb Hh s. unfold try_except. specialize (Hb s).
  destruct (body s) as [[[a | e] s'] ev]; [done |].
  specialize (Hh e s'). destruct (handler e s') as [[r s''] ev'].
  unfold after in *; simpl in *. congruence.
Qed.

Lemma keeps_on_field {T A} (proj : S → T) upd (m : M T A) :
  (∀ t s, f (upd t s) = f s) → keeps f (on_field proj upd m).
Proof.
  intros Hu s. unfold on_field. destruct (m (proj s)) as [[r t'] ev].
  apply Hu.
Qed.

Lemma keeps_lift_outcome {A} (r : outcome A) : keeps f (lift_outcome r : M S A).
Proof. done. Qed.

Lemma keeps_time_sleep secs : keeps f (time_sleep secs : M S unit).
Proof.
  unfold time_sleep.
  by destruct (is_nan secs), (sleep_overflows secs), (secs <? 0)%float.
Qed.
End keeps.
End run.

Create HintDb returns.
#[export] Hint Resolve returns_ret returns_get returns_modify returns_emit
  returns_log returns_when returns_try_except returns_on_field : returns.
#[export] Hint Extern 2 (returns (_ ≫= _)) =>
  apply returns_bind; [| intros ?] : returns.
#[export] Hint Extern 2 (returns (for_each _ _)) =>
  apply returns_for_each; intros ?; cbv beta : returns.

Create HintDb keeps.
#[export] Hint Resolve keeps_ret keeps_get keeps_raise keeps_emit keeps_log
  keeps_when keeps_try_except keeps_lift_outcome keeps_time_sleep : keeps.
#[export] Hint Extern 2 (keeps _ (_ ≫= _)) =>
  apply keeps_bind; [| intros ?] : keeps.
#[export] Hint Extern 2 (keeps _ (for_each _ _)) =>
  apply keeps_for_each; intros ?; cbv beta : keeps.
#[export] Hint Extern 2 (keeps _ (modify _)) =>
  apply keeps_modify; by intros [] : keeps.
#[export] Hint Extern 2 (keeps _ (on_field _ _ _)) =>
  apply keeps_on_field; by intros ? [] : keeps.

(** Unfolds the monad down to the triple a run computes. *)
Ltac run :=
  unfold result, after, events, try_except, when, on_field, new, lift_outcome,
    time_sleep, log, emit, raise, modify, get, mbind, M_bind, mret, M_ret in *;
  simpl in *.

(** ** RelayController *)

Section relay.
Import RelayController.

Lemma all_off_lookup pins pin :
  all_off pins !! pin = if bool_decide (pin ∈ pins) then Some false else None.
Proof.
  unfold all_off. induction pins as [| p pins IH].
  - by rewrite fmap_nil, list_to_map_nil, lookup_empty.
  - rewrite fmap_cons, list_to_map_cons. simpl.
    destruct (decide (p = pin)) as [-> | Hne].
    + rewrite lookup_insert_eq, bool_decide_eq_true_2; [done | left].
    + rewrite lookup_insert_ne, IH by done.
      rewrite (bool_decide_ext (pin ∈ p :: pins) (pin ∈ pins)); [done |].
      rewrite elem_of_cons. split; [by intros [-> | ?] | by right].
Qed.

Lemma keeps_call {B} (f : t → B) g c : keeps f (call g c).
Proof. unfold call. destruct (g c); auto with keeps. Qed.

Lemma keeps_if_gpio {B} (f : t → B) calls :
  (∀ g, keeps f (calls g)) → keeps f (if_gpio calls).
Proof.
  intros H. unfold if_gpio. apply keeps_bind; [apply keeps_get |].
  intros self. destruct (gpio self); auto with keeps.
Qed.

Hint Resolve keeps_call : keeps.
Hint Extern 2 (keeps _ (if_gpio _)) =>
  apply keeps_if_gpio; intros ?; cbv beta : keeps.

(** Only the driver sees [setup_gpio] and [cleanup]: the object itself
    stays as it is. *)
Lemma setup_gpio_keeps self : after (setup_gpio self) = self.
Proof.
  assert (keeps id setup_gpio) as H; [| apply H].
  unfold setup_gpio. auto 10 with keeps.
Qed.

Lemma setup_gpio_returns : returns setup_gpio.
Proof. unfold setup_gpio. auto with returns. Qed.

Lemma cleanup_keeps self : after (cleanup self) = self.
Proof.
  assert (keeps id cleanup) as H; [| apply H].
  unfold cleanup. auto 10 with keeps.
Qed.

Lemma cleanup_returns : returns cleanup.
Proof. unfold cleanup. auto with returns. Qed.

(** *** What one call does *)

Lemma activate_relay_invalid self pin duration :
  pin ∉ relay_pins self →
  activate_relay pin duration self =
  (Ret tt, self, [Log ERROR (ErrorActivatingRelay pin (InvalidRelayPin pin))]).
Proof.
  intros Hpin. unfold activate_relay. run.
  by rewrite bool_decide_eq_false_2.
Qed.



Lemma deactivate_relay_valid self pin :
  pin ∈ relay_pins self → driver_accepts self (Output pin HIGH) →
  deactivate_relay pin self =
  (Ret tt, set_relay_states <[pin := false]> self,
   match gpio self with Some _ => [Gpio (Output pin HIGH)] | None => [] end
   ++ [Log INFO (RelayDeactivated pin)]).
Proof.
  intros Hpin Hg. unfold deactivate_relay, if_gpio, call. run.
  rewrite bool_decide_eq_true_2 by done. simpl.
  destruct (gpio self) as [g |] eqn:E; simpl; [| done].
  by rewrite (Hg g).
Qed.

(** Driver or not, a call either leaves the object alone or writes the
    state of a configured pin. *)
Lemma activate_relay_after self pin duration :
  after (activate_relay pin duration self) = self
  ∨ pin ∈ relay_pins self
    ∧ after (activate_relay pin duration self) = set_relay_states <[pin := true]> self.
Proof.
  unfold activate_relay, if_gpio, call. run.
  case_bool_decide; simpl; [| by left].
  destruct (gpio self) as [g |]; simpl.
  - destruct (g (Output pin LOW)); simpl; [by left |].
    right. by destruct (truthy duration).
  - right. by destruct (truthy duration).
Qed.

Lemma deactivate_relay_after self pin :
  after (deactivate_relay pin self) = self
  ∨ pin ∈ relay_pins self
    ∧ after (deactivate_relay pin self) = set_relay_states <[pin := false]> self.
Proof.
  unfold deactivate_relay, if_gpio, call. run.
  case_bool_decide; simpl; [| by left].
  destruct (gpio self) as [g |]; simpl; [| by right].
  destruct (g (Output pin HIGH)); simpl; [by left | by right].
Qed.

Lemma activate_relay_returns pin duration : returns (activate_relay pin duration).
Proof. unfold activate_relay. auto with returns. Qed.

Lemma deactivate_relay_returns pin : returns (deactivate_relay pin).
Proof. unfold deactivate_relay. auto with returns. Qed.

(** *** The invariant *)

Lemma relay_wf_init pins gpio_module rc ev :
  __init__ pins gpio_module tt = (Ret rc, tt, ev) → relay_wf rc.
Proof.
  unfold __init__, new. intros H.
  pose proof (setup_gpio_keeps (mk pins gpio_module (all_off pins))) as Hk.
  destruct (setup_gpio _) as [[[[] | e] rc'] ev']; [| done].
  unfold after in Hk; simpl in Hk. simplify_eq.
  intros pin. simpl. rewrite all_off_lookup. case_bool_decide.
  - split; [done | by eexists].
  - split; [by intros [? ?] | done].
Qed.

Lemma relay_wf_write self pin b :
  relay_wf self → pin ∈ relay_pins self →
  relay_wf (set_relay_states <[pin := b]> self).
Proof.
  intros Hwf Hpin p. simpl. rewrite lookup_insert.
  case_decide as Hp; [subst p |]; [| apply Hwf].
  split; [done | by eexists].
Qed.

Lemma relay_reachable_wf rc : relay_reachable rc → relay_wf rc.
Proof.
  induction 1 as [pins g rc ev Hinit | rc pin d _ IH | rc pin _ IH | rc _ IH].
  - by eapply relay_wf_init.
  - destruct (activate_relay_after rc pin d) as [-> | [Hpin ->]];
      [done | by apply relay_wf_write].
  - destruct (deactivate_relay_after rc pin) as [-> | [Hpin ->]];
      [done | by apply relay_wf_write].
  - by rewrite cleanup_keeps.
Qed.

Lemma fresh_relays_reachable : relay_reachable fresh_relays.
Proof. by eapply (reach_init [18; 19; 20; 21]%Z None). Qed.

(** *** The claims on the relay bank *)





(** C10: for a channel id [p] outside the configured set,
    [get_relay_state p] is a plain read that returns false, the default of
    the dict lookup; nothing is raised. *)
Theorem relay_state_of_unknown_pin (self : t) (p : Z) :
  relay_reachable self → p ∉ relay_pins self →
  get_relay_state self p = false.
Proof.
  intros Hwf%relay_reachable_wf Hp. unfold get_relay_state.
  destruct (relay_states self !! p) as [b |] eqn:E; [| done].
  destruct Hp. apply Hwf. by eexists.
Qed.

Lemma relay_state_of_unknown_pin_witness :
  get_relay_state fresh_relays 0 = false.
Proof.
  apply (relay_state_of_unknown_pin fresh_relays 0).
  - apply fresh_relays_reachable.
  - apply (bool_decide_unpack _). vm_compute. exact I.
Defined.
End relay.


(** ** The order of floats *)

Section float_order.

Lemma lex_spec e1 m1 e2 m2 :
  match lex e1 m1 e2 m2 with
  | Lt => (e1 < e2 ∨ e1 = e2 ∧ (m1 < m2)%positive)%Z
  | Eq => e1 = e2 ∧ m1 = m2
  | Gt => (e2 < e1 ∨ e1 = e2 ∧ (m2 < m1)%positive)%Z
  end.
Proof.
  unfold lex. destruct (Z.compare_spec e1 e2) as [-> | H | H]; [| by left..].
  change (Pos.compare_cont Eq m1 m2) with (m1 ?= m2)%positive.
  destruct (Pos.compare_spec m1 m2); auto.
Qed.

Lemma lex_antisym e1 m1 e2 m2 : lex e2 m2 e1 m1 = CompOpp (lex e1 m1 e2 m2).
Proof.
  pose proof (lex_spec e1 m1 e2 m2). pose proof (lex_spec e2 m2 e1 m1).
  destruct (lex e1 m1 e2 m2), (lex e2 m2 e1 m1); simpl; try done; lia.
Qed.

Lemma lex_trans e1 m1 e2 m2 e3 m3 :
  lex e1 m1 e2 m2 ≠ Gt → lex e2 m2 e3 m3 ≠ Gt → lex e1 m1 e3 m3 ≠ Gt.
Proof.
  pose proof (lex_spec e1 m1 e2 m2). pose proof (lex_spec e2 m2 e3 m3).
  pose proof (lex_spec e1 m1 e3 m3).
  destruct (lex e1 m1 e2 m2), (lex e2 m2 e3 m3), (lex e1 m1 e3 m3);
    try done; lia.
Qed.

Lemma SFcompare_finite s1 m1 e1 s2 m2 e2 :
  SFcompare (S754_finite s1 m1 e1) (S754_finite s2 m2 e2) =
  Some match s1, s2 with
       | true, false => Lt
       | false, true => Gt
       | false, false => lex e1 m1 e2 m2
       | true, true => lex e2 m2 e1 m1
       end.
Proof.
  simpl. destruct s1, s2; try done; unfold lex.
  rewrite (Z.compare_antisym e1 e2). destruct (e1 ?= e2)%Z; simpl; try done.
  change (Pos.compare_cont Eq m2 m1) with (m2 ?= m1)%positive.
  change (Pos.compare_cont Eq m1 m2) with (m1 ?= m2)%positive.
  by rewrite (Pos.compare_antisym m1 m2).
Qed.

Lemma SFcompare_antisym a b :
  SFcompare b a = CompOpp <$> SFcompare a b.
Proof.
  destruct a as [sa | sa | | sa ma ea], b as [sb | sb | | sb mb eb];
    try (by repeat match goal with s : bool |- _ => destruct s end).
  rewrite !SFcompare_finite. destruct sa, sb; simpl; try done;
    by rewrite lex_antisym, ?CompOpp_involutive.
Qed.

Lemma SFleb_trans a b c :
  SFleb a b = true → SFleb b c = true → SFleb a c = true.
Proof.
  unfold SFleb.
  destruct a as [sa | sa | | sa ma ea], b as [sb | sb | | sb mb eb],
    c as [sc | sc | | sc mc ec];
    try (by repeat match goal with s : bool |- _ => destruct s end).
  rewrite !SFcompare_finite. destruct sa, sb, sc; try done.
  - pose proof (lex_trans ec mc eb mb ea ma).
    destruct (lex eb mb ea ma), (lex ec mc eb mb), (lex ec mc ea ma);
      naive_solver.
  - pose proof (lex_trans ea ma eb mb ec mc).
    destruct (lex ea ma eb mb), (lex eb mb ec mc), (lex ea ma ec mc);
      naive_solver.
Qed.

(** [<=] on doubles is transitive, NaN or not. *)
Lemma leb_trans (x y z : float) :
  (x <=? y)%float = true → (y <=? z)%float = true → (x <=? z)%float = true.
Proof. rewrite !leb_spec. apply SFleb_trans. Qed.

(** [x < y] excludes [y <= x], NaN or not. *)
Lemma ltb_not_leb (x y : float) :
  (x <? y)%float = true → (y <=? x)%float = false.
Proof.
  rewrite ltb_spec, leb_spec. unfold SFltb, SFleb.
  rewrite (SFcompare_antisym (Prim2SF x)).
  by destruct (SFcompare _ _) as [[] |].
Qed.


Lemma is_nan_false (x : float) : is_nan x = false → Prim2SF x ≠ S754_nan.
Proof.
  unfold is_nan. rewrite FloatAxioms.eqb_spec. unfold SFeqb.
  by intros H E; rewrite E in H.
Qed.

Lemma SFcompare_is_Some a b :
  a ≠ S754_nan → b ≠ S754_nan → is_Some (SFcompare a b).
Proof. destruct a, b; simpl; try done; intros _ _; eauto. Qed.

(** Two numbers (neither is NaN) are comparable. *)
Lemma not_leb_ltb (x y : float) :
  is_nan x = false → is_nan y = false →
  (y <=? x)%float = false → (x <? y)%float = true.
Proof.
  intros Hx%is_nan_false Hy%is_nan_false.
  rewrite ltb_spec, leb_spec. unfold SFltb, SFleb.
  rewrite (SFcompare_antisym (Prim2SF x) (Prim2SF y)).
  destruct (SFcompare_is_Some _ _ Hx Hy) as [c ->]. by destruct c.
Qed.

(** What compares is a number. *)
Lemma leb_is_number (x y : float) :
  (x <=? y)%float = true → is_nan x = false ∧ is_nan y = false.
Proof.
  unfold is_nan. rewrite !FloatAxioms.eqb_spec, leb_spec. unfold SFeqb, SFleb.
  destruct (Prim2SF x) as [[] | [] | | [] mx ex],
    (Prim2SF y) as [[] | [] | | [] my ey];
    try done; rewrite ?SFcompare_finite; intros _;
    unfold lex; rewrite ?Z.compare_refl;
    change (Pos.compare_cont Eq ?m ?m) with (m ?= m)%positive;
    by rewrite ?Pos.compare_refl.
Qed.

(** A number is at most itself. *)
Lemma leb_refl (x : float) : is_nan x = false → (x <=? x)%float = true.
Proof.
  unfold is_nan. rewrite FloatAxioms.eqb_spec, leb_spec. unfold SFeqb, SFleb.
  by destruct (SFcompare _ _) as [[] |].
Qed.

(** Rounding a mantissa that is not negative gives a number of the sign
    asked for, never a NaN. *)
Section rounding.
Variables prec emax : Z.





End rounding.



(** A NaN is what does not compare with itself. *)
Lemma is_nan_true (x : float) : is_nan x = true → Prim2SF x = S754_nan.
Proof.
  unfold is_nan. rewrite FloatAxioms.eqb_spec. unfold SFeqb.
  destruct (Prim2SF x) as [[] | [] | | [] mx ex]; try done;
    rewrite SFcompare_finite; unfold lex; rewrite Z.compare_refl;
    change (Pos.compare_cont Eq ?m ?m) with (m ?= m)%positive;
    by rewrite Pos.compare_refl.
Qed.

End float_order.

(** ** time.sleep *)

Section sleep.
Context {S : Type}.






End sleep.

(** ** MotorController *)

Section motor.
Import MotorController.













End motor.

(** ** PestManagementSystem: the risk policy *)

Section policy.
Import PestManagementSystem.

(** What [trigger_pest_response] does, whatever its arguments: it puts the
    bundle of the branch it takes at the back of the queue, in order, and
    logs the detection. *)
Lemma trigger_pest_response_classify self pest_type confidence location :
  trigger_pest_response pest_type confidence location self =
  (Ret tt,
   set_action_queue
     (action_queue self
      ++ bundle (classify (Config.pest_thresholds (config self)) confidence)) self,
   [Log INFO (TriggeredPestResponse pest_type confidence)]).
Proof.
  unfold trigger_pest_response, classify, add_action. run.
  destruct (Config.high_risk _ <=? confidence)%float; simpl.
  - unfold set_action_queue; simpl. by rewrite <- app_assoc.
  - destruct (Config.medium_risk _ <=? confidence)%float; simpl.
    + unfold set_action_queue; simpl. by rewrite <- app_assoc.
    + done.
Qed.

(** The three bundles differ, so what is enqueued tells the tier. *)
Lemma bundle_inj t1 t2 : bundle t1 = bundle t2 → t1 = t2.
Proof.
  destruct t1, t2; try done; intros H; exfalso;
    apply (f_equal (λ l, match l with
                         | PDict d :: _ => d !! "duration"
                         | _ => None
                         end)) in H;
    vm_compute in H; discriminate H.
Qed.

(** C1: for a confidence in [0,1] (the high threshold being a number),
    whatever the pest type and the location, [trigger_pest_response] puts
    at the back of the queue, in this order, spray_pesticide(10) and
    activate_trap(60) when [confidence >= high_risk], spray_pesticide(5)
    and activate_trap(30) when [medium_risk <= confidence < high_risk], and
    activate_trap(15) alone otherwise; the actions are the same for every
    pest type and location. *)
Theorem trigger_pest_response_bundle (thresholds : Config.thresholds) (confidence : float) :
  (0 <=? confidence)%float = true → (confidence <=? 1)%float = true →
  is_nan (Config.high_risk thresholds) = false →
  ∃ actions : list pyobj,
    (∀ self pest_type location,
       Config.pest_thresholds (config self) = thresholds →
       trigger_pest_response pest_type confidence location self =
       (Ret tt, set_action_queue (action_queue self ++ actions) self,
        [Log INFO (TriggeredPestResponse pest_type confidence)]))
    ∧ ((Config.high_risk thresholds <=? confidence)%float = true →
       actions = [spray_pesticide 10; activate_trap 60])
    ∧ ((Config.medium_risk thresholds <=? confidence)%float = true →
       (confidence <? Config.high_risk thresholds)%float = true →
       actions = [spray_pesticide 5; activate_trap 30])
    ∧ ((Config.high_risk thresholds <=? confidence)%float = false →
       ¬ ((Config.medium_risk thresholds <=? confidence)%float = true
          ∧ (confidence <? Config.high_risk thresholds)%float = true) →
       actions = [activate_trap 15]).
Proof.
  intros [_ Hc]%leb_is_number _ Hh.
  exists (bundle (classify thresholds confidence)). split; [| unfold classify].
  { intros self pest_type location <-. apply trigger_pest_response_classify. }
  split; [by intros -> |]. split.
  - intros Hm Hlt%ltb_not_leb. by rewrite Hlt, Hm.
  - intros Hhigh Hnot. rewrite Hhigh.
    destruct (Config.medium_risk thresholds <=? confidence)%float; [| done].
    destruct Hnot. split; [done |]. by apply not_leb_ltb.
Qed.

Lemma trigger_pest_response_bundle_witness :
  let thresholds := Config.pest_thresholds default_config in
  let confidence := 0x1.b333333333333p-1%float in
  ∃ actions : list pyobj,
    (∀ self pest_type location,
       Config.pest_thresholds (config self) = thresholds →
       trigger_pest_response pest_type confidence location self =
       (Ret tt, set_action_queue (action_queue self ++ actions) self,
        [Log INFO (TriggeredPestResponse pest_type confidence)]))
    ∧ ((Config.high_risk thresholds <=? confidence)%float = true →
       actions = [spray_pesticide 10; activate_trap 60])
    ∧ ((Config.medium_risk thresholds <=? confidence)%float = true →
       (confidence <? Config.high_risk thresholds)%float = true →
       actions = [spray_pesticide 5; activate_trap 30])
    ∧ ((Config.high_risk thresholds <=? confidence)%float = false →
       ¬ ((Config.medium_risk thresholds <=? confidence)%float = true
          ∧ (confidence <? Config.high_risk thresholds)%float = true) →
       actions = [activate_trap 15]).
Proof.
  apply (trigger_pest_response_bundle
           (Config.pest_thresholds default_config) 0x1.b333333333333p-1).
  - reflexivity.
  - reflexivity.
  - reflexivity.
Defined.

(** At [confidence = high_risk] (a number) the response is the high one. *)
Lemma trigger_at_high_risk self pest_type location :
  let high_risk := Config.high_risk (Config.pest_thresholds (config self)) in
  is_nan high_risk = false →
  after (trigger_pest_response pest_type high_risk location self) =
  set_action_queue
    (action_queue self ++ [spray_pesticide 10; activate_trap 60]) self.
Proof.
  simpl. intros Hh. rewrite trigger_pest_response_classify.
  unfold classify. by rewrite (leb_refl _ Hh).
Qed.

(** The scenario of the module's [main]: an aphid seen with confidence 0.85
    under the default thresholds queues the spray, then the trap. *)
Example scenario_aphid :
  trigger_pest_response (VStr "aphid") 0x1.b333333333333p-1 (VInt 100, VInt 200)
    fresh_system =
  (Ret tt,
   set_action_queue [spray_pesticide 10; activate_trap 60] fresh_system,
   [Log INFO (TriggeredPestResponse (VStr "aphid") 0x1.b333333333333p-1)]).
Proof. reflexivity. Qed.

(** C6: the tier [trigger_pest_response] assigns is monotone in the
    confidence: for [c1 <= c2] the tier of [c1] is at most the tier of [c2]
    in the order low < medium < high, whatever the thresholds (ordered
    high >= medium >= low or not). *)
Theorem classify_monotone (thresholds : Config.thresholds) (c1 c2 : float) :
  (c1 <=? c2)%float = true →
  tier_le (classify thresholds c1) (classify thresholds c2).
Proof.
  intros H12. unfold classify, tier_le.
  destruct (Config.high_risk thresholds <=? c1)%float eqn:H1.
  { by rewrite (leb_trans _ _ _ H1 H12). }
  destruct (Config.high_risk thresholds <=? c2)%float.
  { destruct (Config.medium_risk thresholds <=? c1)%float; simpl; lia. }
  destruct (Config.medium_risk thresholds <=? c1)%float eqn:M1.
  { by rewrite (leb_trans _ _ _ M1 H12). }
  destruct (Config.medium_risk thresholds <=? c2)%float; simpl; lia.
Qed.

Lemma classify_monotone_witness :
  tier_le (classify (Config.pest_thresholds default_config) 0x1p-1)
          (classify (Config.pest_thresholds default_config) 0x1.b333333333333p-1).
Proof.
  apply (classify_monotone (Config.pest_thresholds default_config)
           0x1p-1 0x1.b333333333333p-1).
  reflexivity.
Defined.

(** C9: [trigger_pest_response] never reads [low_risk]: run on the same
    arguments with any other [low_risk] configured, it returns the same
    outcome, leaves the same action queue and emits the same events. *)
Theorem low_risk_is_not_read (self : t) (low_risk : float)
    (pest_type : value) (confidence : float) (location : value * value) :
  let run1 := trigger_pest_response pest_type confidence location self in
  let run2 := trigger_pest_response pest_type confidence location
                (with_low_risk low_risk self) in
  result run2 = result run1
  ∧ action_queue (after run2) = action_queue (after run1)
  ∧ events run2 = events run1.
Proof. simpl. by rewrite !trigger_pest_response_classify. Qed.

End policy.

(** ** PestManagementSystem: the dispatcher *)

Section dispatcher.
Import PestManagementSystem.

Lemma execute_not_a_dict v self :
  _execute_action (PValue v) self = (Raise (AttributeError "get"), self, []).
Proof. done. Qed.

Lemma execute_dict_returns d : returns (_execute_action (PDict d)).
Proof. unfold _execute_action. simpl. auto with returns. Qed.

Lemma stop_system_keeps_queue : keeps action_queue stop_system.
Proof. unfold stop_system, sensor, relay. auto 10 with keeps. Qed.

Lemma keeps_obj_get {B} (f : t → B) action key dflt :
  keeps f (obj_get action key dflt).
Proof. destruct action; [apply keeps_ret | apply keeps_raise]. Qed.

(** Executing an action never touches the queue. *)
Lemma execute_keeps_queue action : keeps action_queue (_execute_action action).
Proof.
  unfold _execute_action, _spray_pesticide, _activate_trap, _adjust_camera,
    _emergency_shutdown, relay, motor.
  apply keeps_bind; [apply keeps_obj_get | intros action_type].
  apply keeps_try_except; [| auto with keeps].
  repeat case_match;
    auto 10 using keeps_obj_get, stop_system_keeps_queue with keeps.
Qed.

(** Only an emergency shutdown clears [is_running]. *)
Lemma execute_keeps_running d :
  eq_str (dict_get d "type" VNone) "emergency_shutdown" = false →
  keeps is_running (_execute_action (PDict d)).
Proof.
  intros Hkind.
  unfold _execute_action, _spray_pesticide, _activate_trap, _adjust_camera,
    relay, motor.
  apply keeps_bind_ret, keeps_try_except; [| auto with keeps].
  rewrite Hkind.
  repeat case_match; auto 10 using keeps_obj_get with keeps.
Qed.

(** One turn of the worker on a non-empty queue: the head is popped and
    executed; what escapes execution is logged. *)
Lemma turn_pops self action rest :
  action_queue self = action :: rest →
  turn self =
  match _execute_action action (set_action_queue rest self) with
  | (Ret a, s, ev) => (Ret a, s, ev)
  | (Raise e, s, ev) =>
      (result ((match e with
                | QueueEmpty => mret tt
                | _ => log ERROR (ErrorProcessingAction e)
                end : M t unit) s),
       s,
       ev ++ match e with
             | QueueEmpty => []
             | _ => [Log ERROR (ErrorProcessingAction e)]
             end)
  end.
Proof.
  intros Hq. unfold turn, queue_get. run. rewrite Hq. simpl.
  destruct (_execute_action action (set_action_queue rest self))
    as [[[a | e] s] ev]; [done |].
  by destruct e.
Qed.

Lemma turn_returns : returns turn.
Proof.
  unfold turn. apply returns_try_except. intros []; auto with returns.
Qed.

Lemma execute_unknown_kind d self :
  known_kind (dict_get d "type" VNone) = false →
  _execute_action (PDict d) self =
  (Ret tt, self, [Log WARNING (UnknownActionType (dict_get d "type" VNone))]).
Proof.
  unfold known_kind. rewrite !orb_false_iff. intros [[[H1 H2] H3] H4].
  unfold _execute_action. run. by rewrite H1, H2, H3, H4.
Qed.

Lemma process_actions_turn fuel self :
  is_running self = true →
  _process_actions (S fuel) self =
  prefixed (events (turn self)) (_process_actions fuel (after (turn self))).
Proof.
  intros Hrun. destruct (turn_returns self) as [[] Hret].
  change (_process_actions (S fuel))
    with (self ← get; if is_running self
                      then turn;; _process_actions fuel else mret tt).
  unfold prefixed. run. rewrite Hrun.
  destruct (turn self) as [[r s] ev]. simpl in *. subst r.
  by destruct (_process_actions fuel s) as [[r' s'] ev'].
Qed.

(** The worker on a queue that starts with something that is not a dict:
    the error is logged and the next turn executes the action behind it.
    (Relay 1 is not one of the configured pins 18 to 21, so the trap's
    activation is itself refused and logged.) *)
Example scenario_bad_then_good :
  _process_actions 2 (running_system [PValue VNone; activate_trap 15]) =
  (Ret tt, running_system [],
   [Log ERROR (ErrorProcessingAction (AttributeError "get"));
    Log INFO (ActivatingTrap (VInt 15));
    Log ERROR (ErrorActivatingRelay 1 (InvalidRelayPin 1))]).
Proof. reflexivity. Qed.

(** C5: while the worker runs, a turn of its loop on a queued action
    returns whatever the action (no exception leaves the turn), having
    popped that action and no other, and the loop goes on to its next turn
    with the rest of the queue.  An exception that escapes the execution of
    the action is logged as an error and leaves [is_running] true; so does
    every action but an emergency shutdown.  An action dict whose kind is
    none of the four known ones is logged with a warning and dropped: the
    system is as before but for the popped queue, so relays, motor and
    [is_running] are unchanged. *)
Theorem worker_survives_failed_actions (self : t) (action : pyobj) (rest : list pyobj) :
  is_running self = true → action_queue self = action :: rest →
  result (turn self) = Ret tt
  ∧ action_queue (after (turn self)) = rest
  ∧ (∀ fuel,
       _process_actions (S fuel) self =
       prefixed (events (turn self)) (_process_actions fuel (after (turn self))))
  ∧ (∀ e s ev,
       _execute_action action (set_action_queue rest self) = (Raise e, s, ev) →
       turn self = (Ret tt, s, ev ++ [Log ERROR (ErrorProcessingAction e)])
       ∧ is_running s = true)
  ∧ (∀ d,
       action = PDict d →
       eq_str (dict_get d "type" VNone) "emergency_shutdown" = false →
       is_running (after (turn self)) = true)
  ∧ (∀ d,
       action = PDict d → known_kind (dict_get d "type" VNone) = false →
       turn self =
       (Ret tt, set_action_queue rest self,
        [Log WARNING (UnknownActionType (dict_get d "type" VNone))])
       ∧ relay_controller (after (turn self)) = relay_controller self
       ∧ motor_controller (after (turn self)) = motor_controller self
       ∧ is_running (after (turn self)) = true).
Proof.
  intros Hrun Hq. pose proof (turn_pops self action rest Hq) as Hturn.
  split; [| split; [| split; [| split; [| split]]]].
  - destruct (turn_returns self) as [[] Hret]. done.
  - pose proof (execute_keeps_queue action (set_action_queue rest self)) as Hk.
    rewrite Hturn.
    destruct (_execute_action action _) as [[[a | e] s] ev]; apply Hk.
  - intros fuel. by apply process_actions_turn.
  - intros e s ev Hexec. destruct action as [d | v].
    + destruct (execute_dict_returns d (set_action_queue rest self)) as [a Ha].
      rewrite Hexec in Ha. discriminate Ha.
    + rewrite execute_not_a_dict in Hexec. simplify_eq.
      by rewrite Hturn, execute_not_a_dict.
  - intros d -> Hkind.
    pose proof (execute_keeps_running d Hkind (set_action_queue rest self)) as Hk.
    destruct (execute_dict_returns d (set_action_queue rest self)) as [a Ha].
    rewrite Hturn.
    destruct (_execute_action (PDict d) _) as [[r s] ev].
    unfold result, after in *; simpl in *. subst r. simpl. by rewrite Hk.
  - intros d -> Hkind. by rewrite Hturn, execute_unknown_kind.
Qed.

Lemma worker_survives_failed_actions_witness :
  let self := running_system [PValue VNone; activate_trap 15] in
  let action := PValue VNone in
  let rest := [activate_trap 15] in
  result (turn self) = Ret tt
  ∧ action_queue (after (turn self)) = rest
  ∧ (∀ fuel,
       _process_actions (S fuel) self =
       prefixed (events (turn self)) (_process_actions fuel (after (turn self))))
  ∧ (∀ e s ev,
       _execute_action action (set_action_queue rest self) = (Raise e, s, ev) →
       turn self = (Ret tt, s, ev ++ [Log ERROR (ErrorProcessingAction e)])
       ∧ is_running s = true)
  ∧ (∀ d,
       action = PDict d →
       eq_str (dict_get d "type" VNone) "emergency_shutdown" = false →
       is_running (after (turn self)) = true)
  ∧ (∀ d,
       action = PDict d → known_kind (dict_get d "type" VNone) = false →
       turn self =
       (Ret tt, set_action_queue rest self,
        [Log WARNING (UnknownActionType (dict_get d "type" VNone))])
       ∧ relay_controller (after (turn self)) = relay_controller self
       ∧ motor_controller (after (turn self)) = motor_controller self
       ∧ is_running (after (turn self)) = true).
Proof.
  apply (worker_survives_failed_actions
           (running_system [PValue VNone; activate_trap 15])
           (PValue VNone) [activate_trap 15]).
  - reflexivity.
  - reflexivity.
Defined.

End dispatcher.

(** ** PestManagementSystem: construction *)

Section construction.
Import PestManagementSystem.

Lemma os_is_not_imported : "os" ∉ module_globals.
Proof. apply (bool_decide_unpack _). vm_compute. exact I. Qed.

Lemma initialize_controllers_run {S} (config : Config.t) (s : S) :
  _initialize_controllers config s =
  (Ret (RelayController.mk (Config.relay_pins config) None
          (RelayController.all_off (Config.relay_pins config)),
        MotorController.__init__ (Config.motor_pins config) "stepper",
        SensorController.__init__ (Config.sensors config)),
   s, [Log INFO AllControllersInitialized]).
Proof. done. Qed.

(** With the default configuration the constructor builds [fresh_system]. *)
Lemma init_default {S} globals fs config_file (s : S) :
  given config_file = None →
  __init__ globals fs config_file s =
  (Ret fresh_system, s, [Log INFO AllControllersInitialized]).
Proof. intros H. unfold __init__, _load_config. by rewrite H. Qed.

(** Were [os] bound, a named file that exists would be opened: the
    NameError is what keeps [_load_config] from its file. *)
Lemma load_config_opens {S} globals fs path f (s : S) :
  path ≠ "" → "os" ∈ globals → fs path = Some f →
  ∃ config ev, _load_config globals fs (Some path) s = (Ret config, s, Open path :: ev).
Proof.
  intros Hpath%String.eqb_neq Hos Hf. unfold _load_config, given, global_name.
  rewrite Hpath, bool_decide_eq_true_2 by done. run. rewrite Hf.
  destruct f; simpl; eauto.
Qed.

(** C8, as amended: for every config_file that is a non-empty string, the
    constructor raises NameError on the name [os] before any file is
    opened and before anything is logged, whatever the files are; with
    config_file None or the empty string the test short-circuits before
    [os] is evaluated, and the constructor returns the system of the
    default configuration. *)
Theorem construction_needs_os (fs : filesystem) (path : string) :
  path ≠ "" →
  __init__ module_globals fs (Some path) tt = (Raise (NameError "os"), tt, [])
  ∧ __init__ module_globals fs None tt =
    (Ret fresh_system, tt, [Log INFO AllControllersInitialized])
  ∧ __init__ module_globals fs (Some "") tt =
    (Ret fresh_system, tt, [Log INFO AllControllersInitialized]).
Proof.
  intros Hpath%String.eqb_neq. split; [| split; by apply init_default].
  unfold __init__, _load_config, given, global_name.
  rewrite Hpath, (bool_decide_eq_false_2 _ os_is_not_imported). done.
Qed.

Lemma construction_needs_os_witness :
  __init__ module_globals no_files (Some "config.json") tt =
    (Raise (NameError "os"), tt, [])
  ∧ __init__ module_globals no_files None tt =
    (Ret fresh_system, tt, [Log INFO AllControllersInitialized])
  ∧ __init__ module_globals no_files (Some "") tt =
    (Ret fresh_system, tt, [Log INFO AllControllersInitialized]).
Proof.
  apply (construction_needs_os no_files "config.json").
  intros H. discriminate H.
Defined.

(** C8, as stated, fails: the empty string is a config_file that is not
    None, and the constructor returns a system for it. *)
Lemma construction_with_empty_path :
  Some "" ≠ (None : option string)
  ∧ __init__ module_globals no_files (Some "") tt =
    (Ret fresh_system, tt, [Log INFO AllControllersInitialized]).
Proof. done. Qed.

End construction.

(** * Further properties *)

(** ** More on running the monad *)

Section run_more.
Context {S : Type}.

(** A loop whose body returns without touching the object. *)
Lemma for_each_events {A} (xs : list A) (body : A → M S unit) (f : A → list event) s :
  (∀ x, body x s = (Ret tt, s, f x)) →
  for_each xs body s = (Ret tt, s, concat (f <$> xs)).
Proof.
  intros Hb. induction xs as [| x xs IH]; [done |].
  change (for_each (x :: xs) body) with (body x ;; for_each xs body).
  rewrite (run_bind_ret _ _ _ _ _ _ (Hb x)), IH. done.
Qed.

Section preserves.
Context (P : S → Prop).

Lemma preserves_keeps {A B} (f : S → B) (Q : B → Prop) (m : M S A) :
  (∀ s, P s ↔ Q (f s)) → keeps f m → preserves P m.
Proof. intros HP Hk s. rewrite !HP, Hk. done. Qed.

Lemma preserves_ret {A} (a : A) : preserves P (mret a : M S A).
Proof. by intros s. Qed.

Lemma preserves_bind {A B} (m : M S A) (k : A → M S B) :
  preserves P m → (∀ a, preserves P (k a)) → preserves P (m ≫= k).
Proof.
  intros Hm Hk s Hs. rewrite run_bind. specialize (Hm s Hs).
  destruct (m s) as [[[a | e] s'] ev]; [| done].
  specialize (Hk a s' Hm). by destruct (k a s') as [[r s''] ev'].
Qed.

Lemma preserves_get : preserves P (get : M S S).
Proof. by intros s. Qed.

Lemma preserves_raise {A} e : preserves P (raise e : M S A).
Proof. by intros s. Qed.

Lemma preserves_emit e : preserves P (emit e : M S unit).
Proof. by intros s. Qed.

Lemma preserves_log lvl msg : preserves P (log lvl msg : M S unit).
Proof. by intros s. Qed.

Lemma preserves_modify g : (∀ s, P s → P (g s)) → preserves P (modify g : M S unit).
Proof. intros Hg s. apply Hg. Qed.

Lemma preserves_when c (m : M S unit) : preserves P m → preserves P (when c m).
Proof. destruct c; [done | intros _; apply preserves_ret]. Qed.

Lemma preserves_for_each {A} (xs : list A) (body : A → M S unit) :
  (∀ x, preserves P (body x)) → preserves P (for_each xs body).
Proof.
  intros Hb. induction xs as [| x xs IH]; simpl.
  - apply preserves_ret.
  - apply preserves_bind; auto.
Qed.

Lemma preserves_try_except {A} (body : M S A) handler :
  preserves P body → (∀ e, preserves P (handler e)) →
  preserves P (try_except body handler).
Proof.
  intros Hb Hh s Hs. unfold try_except. specialize (Hb s Hs).
  destruct (body s) as [[[a | e] s'] ev]; [done |].
  specialize (Hh e s' Hb). by destruct (handler e s') as [[r s''] ev'].
Qed.

End preserves.

Lemma preserves_on_field {T A} (Q : T → Prop) (proj : S → T) upd (m : M T A) :
  (∀ t s, proj (upd t s) = t) →
  preserves Q m → preserves (λ s, Q (proj s)) (on_field proj upd m).
Proof.
  intros Hu Hm s Hs. unfold on_field. specialize (Hm (proj s) Hs).
  destruct (m (proj s)) as [[r t'] ev]. unfold after in *; simpl in *.
  by rewrite Hu.
Qed.

End run_more.

Create HintDb preserves.
#[export] Hint Resolve preserves_ret preserves_get preserves_raise preserves_emit
  preserves_log preserves_when preserves_try_except : preserves.
#[export] Hint Extern 2 (preserves _ (_ ≫= _)) =>
  apply preserves_bind; [| intros ?] : preserves.
#[export] Hint Extern 2 (preserves _ (for_each _ _)) =>
  apply preserves_for_each; intros ?; cbv beta : preserves.

(** ** RelayController: construction, failing drivers, timers *)

Section relay_more.
Import RelayController.

Lemma all_off_state pins gpio_module pin :
  get_relay_state (mk pins gpio_module (all_off pins)) pin = false.
Proof.
  unfold get_relay_state. simpl. rewrite all_off_lookup. by case_bool_decide.
Qed.

(** X1: building a relay controller never raises, whatever the GPIO module
    does: the constructor hands back the controller with the pins given
    and every relay recorded off, and a setup call that raises is only
    logged (the first call, [setmode], failing gives exactly the call and
    the error record). *)
Theorem relay_init_never_fails {S} (pins : list Z) (gpio_module : option gpio_module) (s : S) :
  ∃ ev,
    __init__ pins gpio_module s = (Ret (mk pins gpio_module (all_off pins)), s, ev)
    ∧ (∀ pin, get_relay_state (mk pins gpio_module (all_off pins)) pin = false)
    ∧ (gpio_module = None → ev = [])
    ∧ (∀ g e, gpio_module = Some g → g Setmode = Some e →
         ev = [Gpio Setmode; Log ERROR (GpioSetupFailed e)]).
Proof.
  unfold __init__, new.
  pose proof (setup_gpio_keeps (mk pins gpio_module (all_off pins))) as Hk.
  destruct (setup_gpio_returns (mk pins gpio_module (all_off pins))) as [[] Hr].
  destruct (setup_gpio _) as [[r rc] ev] eqn:Hrun.
  unfold after, result in *; simpl in *. subst r rc.
  exists ev. split; [done |]. split; [apply all_off_state |]. split.
  - intros ->. unfold setup_gpio, if_gpio in Hrun. run. by simplify_eq.
  - intros g e -> Hg. unfold setup_gpio, if_gpio, call in Hrun. run.
    rewrite Hg in Hrun. simpl in Hrun. by simplify_eq.
Qed.

(** With a driver that takes every call, [setup_gpio] sets the mode, then
    configures each pin and drives it HIGH, in pin order. *)
Lemma setup_gpio_run self g :
  gpio self = Some g → (∀ c, g c = None) →
  setup_gpio self =
  (Ret tt, self,
   Gpio Setmode
   :: concat ((λ pin, [Gpio (Setup pin); Gpio (Output pin HIGH)]) <$> relay_pins self)
   ++ [Log INFO GpioSetupCompleted]).
Proof.
  intros Hg Hok. unfold setup_gpio, if_gpio, call. run. rewrite Hg, Hok. simpl.
  rewrite (for_each_events (relay_pins self) _
             (λ pin, [Gpio (Setup pin); Gpio (Output pin HIGH)])).
  - done.
  - intros pin. run. by rewrite !Hok.
Qed.

(** X2: with a GPIO module whose calls all succeed, the constructor drives
    the hardware in this order: set the pin numbering mode once, then for
    each configured pin, in list order, configure it as an output and drive
    it HIGH (relay off); no pin is ever driven LOW during setup. *)
Theorem relay_init_gpio_sequence {S} (pins : list Z) (g : gpio_module) (s : S) :
  (∀ c, g c = None) →
  gpio_calls (events (__init__ pins (Some g) s)) =
    Setmode :: concat ((λ pin, [Setup pin; Output pin HIGH]) <$> pins)
  ∧ ∀ pin, Output pin LOW ∉ gpio_calls (events (__init__ pins (Some g) s)).
Proof.
  intros Hok. unfold __init__, new.
  rewrite (setup_gpio_run _ g) by done. unfold events; simpl.
  assert (gpio_calls
            (concat ((λ pin, [Gpio (Setup pin); Gpio (Output pin HIGH)]) <$> pins)
             ++ [Log INFO GpioSetupCompleted])
          = concat ((λ pin, [Setup pin; Output pin HIGH]) <$> pins)) as ->.
  { unfold gpio_calls. induction pins as [| p pins IH]; [done |].
    simpl. do 2 f_equal. exact IH. }
  split; [done |]. intros pin Hin.
  apply elem_of_cons in Hin as [? | Hin]; [done |].
  induction pins as [| p pins IH]; simpl in Hin.
  - by apply elem_of_nil in Hin.
  - apply elem_of_cons in Hin as [? | Hin]; [done |].
    apply elem_of_cons in Hin as [? | Hin]; [done |].
    by apply IH.
Qed.

Lemma relay_init_gpio_sequence_witness :
  gpio_calls (events (__init__ [18; 19]%Z (Some (λ _, None)) tt)) =
    Setmode :: concat ((λ pin, [Setup pin; Output pin HIGH]) <$> [18; 19]%Z)
  ∧ ∀ pin, Output pin LOW
           ∉ gpio_calls (events (__init__ [18; 19]%Z (Some (λ _, None)) tt)).
Proof.
  apply (relay_init_gpio_sequence [18; 19]%Z (λ _, None) tt).
  intros c. reflexivity.
Defined.

(** X3: channels are independent: activating or deactivating one pin,
    valid or not, with or without a working driver, never changes the
    recorded state of another pin. *)
Theorem relay_other_pins_untouched (self : t) (p q : Z) (duration : value) :
  p ≠ q →
  get_relay_state (after (activate_relay p duration self)) q = get_relay_state self q
  ∧ get_relay_state (after (deactivate_relay p self)) q = get_relay_state self q.
Proof.
  intros Hpq. unfold get_relay_state. split.
  - destruct (activate_relay_after self p duration) as [-> | [_ ->]]; [done |].
    simpl. by rewrite lookup_insert_ne.
  - destruct (deactivate_relay_after self p) as [-> | [_ ->]]; [done |].
    simpl. by rewrite lookup_insert_ne.
Qed.

Lemma relay_other_pins_untouched_witness :
  get_relay_state (after (activate_relay 18 (VInt 10) fresh_relays)) 19
    = get_relay_state fresh_relays 19
  ∧ get_relay_state (after (deactivate_relay 18 fresh_relays)) 19
    = get_relay_state fresh_relays 19.
Proof.
  apply (relay_other_pins_untouched fresh_relays 18 19 (VInt 10)). lia.
Defined.





End relay_more.

(** ** MotorController: edge cases and composition *)

Section motor_more.
Import MotorController.








Lemma move_servo_returns angle servo_id : returns (move_servo angle servo_id).
Proof. unfold move_servo. auto with returns. Qed.

Lemma move_servo_keeps_range angle servo_id :
  preserves (λ self, angle_in_range (current_position self) = Ret true)
    (move_servo angle servo_id).
Proof.
  intros self Hin. unfold move_servo. run.
  destruct (angle_in_range angle) as [[] | e] eqn:Ha; simpl; done.
Qed.

(** X9: a motor driven through [move_servo] alone keeps
    [0 <= position <= 180]: whatever angles are asked for, numbers in or
    out of range or values that are no numbers at all, each call returns
    and the position stays in range.  (The fresh motor, at 0, is in
    range.) *)
Theorem move_servo_stays_in_range (self : t) (angles : list value) (servo_id : Z) :
  angle_in_range (current_position self) = Ret true →
  result (for_each angles (λ angle, move_servo angle servo_id) self) = Ret tt
  ∧ angle_in_range
      (current_position (after (for_each angles (λ angle, move_servo angle servo_id) self)))
    = Ret true.
Proof.
  intros Hin. split.
  - assert (returns (for_each angles (λ angle, move_servo angle servo_id))) as Hr.
    { apply returns_for_each. intros angle. apply move_servo_returns. }
    by destruct (Hr self) as [[] ?].
  - apply (preserves_for_each
             (λ self, angle_in_range (current_position self) = Ret true));
      [| done].
    intros angle. apply move_servo_keeps_range.
Qed.

Lemma move_servo_stays_in_range_witness :
  let self := MotorController.__init__ ∅ "stepper" in
  let angles := [VFloat 0x1.6cp+5; VInt 200; VStr "left"; VFloat (-0x1p+0)] in
  result (for_each angles (λ angle, move_servo angle 0) self) = Ret tt
  ∧ angle_in_range
      (current_position (after (for_each angles (λ angle, move_servo angle 0) self)))
    = Ret true.
Proof.
  apply (move_servo_stays_in_range (MotorController.__init__ ∅ "stepper")
           [VFloat 0x1.6cp+5; VInt 200; VStr "left"; VFloat (-0x1p+0)] 0).
  reflexivity.
Defined.

End motor_more.

(** ** PestManagementSystem: what every reachable system satisfies *)

Section system_invariant.
Import PestManagementSystem.

Lemma relay_inv_activate pins pin duration :
  preserves (relay_inv pins) (RelayController.activate_relay pin duration).
Proof.
  intros rc (Hpins & Hgpio & Hwf).
  destruct (activate_relay_after rc pin duration) as [-> | [Hpin ->]]; [done |].
  split; [done |]. split; [done |]. by apply relay_wf_write.
Qed.

Lemma relay_inv_deactivate pins pin :
  preserves (relay_inv pins) (RelayController.deactivate_relay pin).
Proof.
  intros rc (Hpins & Hgpio & Hwf).
  destruct (deactivate_relay_after rc pin) as [-> | [Hpin ->]]; [done |].
  split; [done |]. split; [done |]. by apply relay_wf_write.
Qed.

Lemma relay_inv_cleanup pins : preserves (relay_inv pins) RelayController.cleanup.
Proof. intros rc H. by rewrite cleanup_keeps. Qed.

Lemma preserves_relay {A} (Q : RelayController.t → Prop) (m : M RelayController.t A) :
  preserves Q m → preserves (λ s, Q (relay_controller s)) (relay m).
Proof. intros Hm. apply preserves_on_field; [by intros ? [] | done]. Qed.

Lemma preserves_kept {A B} (f : t → B) (Q : B → Prop) (m : M t A) :
  keeps f m → preserves (λ s, Q (f s)) m.
Proof. intros Hk s. by rewrite Hk. Qed.

Lemma stop_system_keeps_config : keeps config stop_system.
Proof. unfold stop_system, sensor, relay. auto 10 with keeps. Qed.

Lemma execute_keeps_config action : keeps config (_execute_action action).
Proof.
  unfold _execute_action, _spray_pesticide, _activate_trap, _adjust_camera,
    _emergency_shutdown, relay, motor.
  apply keeps_bind; [apply keeps_obj_get | intros action_type].
  apply keeps_try_except; [| auto with keeps].
  repeat case_match;
    auto 10 using keeps_obj_get, stop_system_keeps_config with keeps.
Qed.

Lemma stop_system_relay_inv pins :
  preserves (λ s, relay_inv pins (relay_controller s)) stop_system.
Proof.
  unfold stop_system. apply preserves_try_except; [| auto with preserves].
  apply preserves_bind; [| intros _].
  { apply preserves_modify. by intros []. }
  apply preserves_bind; [| intros _].
  { apply preserves_kept. unfold sensor. auto with keeps. }
  apply preserves_bind; [| auto with preserves].
  apply preserves_relay, relay_inv_cleanup.
Qed.

Lemma preserves_obj_get (P : t → Prop) action key dflt :
  preserves P (obj_get action key dflt).
Proof. destruct action; [apply preserves_ret | apply preserves_raise]. Qed.

Lemma execute_relay_inv pins action :
  preserves (λ s, relay_inv pins (relay_controller s)) (_execute_action action).
Proof.
  unfold _execute_action, _spray_pesticide, _activate_trap, _adjust_camera,
    _emergency_shutdown.
  apply preserves_bind; [apply preserves_obj_get | intros action_type].
  apply preserves_try_except; [| auto with preserves].
  repeat case_match.
  - apply preserves_bind; [apply preserves_obj_get | intros duration].
    apply preserves_bind; [auto with preserves | intros _].
    apply preserves_relay, relay_inv_activate.
  - apply preserves_bind; [apply preserves_obj_get | intros duration].
    apply preserves_bind; [auto with preserves | intros _].
    apply preserves_relay, relay_inv_activate.
  - apply preserves_bind; [apply preserves_obj_get | intros angle].
    apply preserves_bind; [auto with preserves | intros _].
    apply preserves_kept. unfold motor. auto with keeps.
  - apply preserves_bind; [auto with preserves | intros _].
    apply preserves_bind; [auto with preserves | intros self].
    apply preserves_bind; [| intros _; apply stop_system_relay_inv].
    apply preserves_for_each. intros pin.
    apply preserves_relay, relay_inv_deactivate.
  - auto with preserves.
Qed.

Lemma turn_keeps_config : keeps config turn.
Proof.
  unfold turn, queue_get. apply keeps_try_except.
  - apply keeps_bind; [| apply execute_keeps_config].
    apply keeps_bind; [apply keeps_get | intros self].
    destruct (action_queue self); auto with keeps.
  - intros []; auto with keeps.
Qed.

Lemma turn_relay_inv pins :
  preserves (λ s, relay_inv pins (relay_controller s)) turn.
Proof.
  unfold turn, queue_get. apply preserves_try_except.
  - apply preserves_bind; [| intros action; apply execute_relay_inv].
    apply preserves_bind; [apply preserves_get | intros self].
    destruct (action_queue self); [auto with preserves |].
    apply preserves_bind; [| auto with preserves].
    apply preserves_modify. by intros [].
  - intros []; auto with preserves.
Qed.

(** What keeps the configuration and the relay invariant keeps [system_wf]. *)
Lemma system_wf_preserved {A} (m : M t A) :
  keeps config m →
  (∀ pins, preserves (λ s, relay_inv pins (relay_controller s)) m) →
  preserves system_wf m.
Proof.
  intros Hc Hr s Hs. unfold system_wf. rewrite Hc. by apply Hr.
Qed.

Lemma init_system_wf globals fs config_file self ev :
  __init__ globals fs config_file tt = (Ret self, tt, ev) → system_wf self.
Proof.
  unfold __init__. rewrite run_bind.
  destruct (_load_config globals fs config_file tt) as [[[config | e] []] ev1];
    [| done].
  rewrite run_bind, initialize_controllers_run. simpl. intros [= <- _].
  split; [done |]. split; [done |].
  intros pin. simpl. rewrite all_off_lookup. case_bool_decide.
  - split; [done | by eexists].
  - split; [by intros [? ?] | done].
Qed.

(** X10: every system a program can hold (built by the constructor, then
    started, stopped, fed actions and detections, and worked through by
    the dispatcher, emergency shutdowns included) keeps its relay
    controller in step with its configuration: the controller's pins are
    the configured pins, it has no GPIO module, and its state dict has one
    entry for each configured pin and no other. *)
Theorem system_reachable_wf (self : t) :
  system_reachable self → system_wf self.
Proof.
  induction 1 as [globals fs cf self ev Hinit | self _ IH | self _ IH
                  | self action _ IH | self pest conf loc _ IH | self _ IH].
  - by eapply init_system_wf.
  - revert IH. apply system_wf_preserved.
    + unfold start_system, sensor. auto 10 with keeps.
    + intros pins. apply preserves_kept. unfold start_system, sensor.
      auto 10 with keeps.
  - revert IH. apply system_wf_preserved;
      [apply stop_system_keeps_config | apply stop_system_relay_inv].
  - by destruct self.
  - rewrite trigger_pest_response_classify. by destruct self.
  - revert IH. apply system_wf_preserved;
      [apply turn_keeps_config | apply turn_relay_inv].
Qed.

Lemma fresh_system_reachable : system_reachable fresh_system.
Proof. by eapply (sys_init module_globals no_files None). Qed.

Lemma system_reachable_wf_witness :
  system_wf
    (after (turn (after (add_action (activate_trap 15)
                           (after (start_system fresh_system)))))).
Proof.
  apply (system_reachable_wf
           (after (turn (after (add_action (activate_trap 15)
                                  (after (start_system fresh_system))))))).
  apply sys_turn, sys_add_action, sys_start, fresh_system_reachable.
Defined.

End system_invariant.

(** ** PestManagementSystem: draining the queue, stopping, shutting down *)

Section worker_more.
Import PestManagementSystem.

Lemma turn_empty self :
  action_queue self = [] → turn self = (Ret tt, self, []).
Proof. intros Hq. unfold turn, queue_get. run. by rewrite Hq. Qed.

Lemma process_stopped fuel self :
  is_running self = false → _process_actions fuel self = (Ret tt, self, []).
Proof. intros Hrun. destruct fuel; [done |]. simpl. run. by rewrite Hrun. Qed.

(** A turn on an action that is no shutdown: the action is popped and the
    worker goes on. *)
Lemma turn_step self action rest :
  is_running self = true → action_queue self = action :: rest →
  not_shutdown action →
  action_queue (after (turn self)) = rest ∧ is_running (after (turn self)) = true.
Proof.
  intros Hrun Hq Hns. rewrite (turn_pops self action rest Hq).
  pose proof (execute_keeps_queue action (set_action_queue rest self)) as Hk.
  destruct action as [d | v].
  - pose proof (execute_keeps_running d Hns (set_action_queue rest self)) as Hr.
    destruct (execute_dict_returns d (set_action_queue rest self)) as [a Ha].
    destruct (_execute_action (PDict d) _) as [[r s] ev].
    unfold result, after in *; simpl in *. subst r. simpl. by rewrite Hr.
  - by rewrite execute_not_a_dict.
Qed.

(** X11: a running worker drains its queue: when no queued action is an
    emergency shutdown, as many turns as there are queued actions (or
    more) leave the queue empty with the worker still running, and no
    exception has left the loop, whatever the actions were (unknown kinds,
    things that are no dicts, refused relay pins, bad angles). *)
Theorem worker_drains_queue (fuel : nat) (self : t) :
  is_running self = true → Forall not_shutdown (action_queue self) →
  length (action_queue self) ≤ fuel →
  result (_process_actions fuel self) = Ret tt
  ∧ action_queue (after (_process_actions fuel self)) = []
  ∧ is_running (after (_process_actions fuel self)) = true.
Proof.
  revert self. induction fuel as [| fuel IH]; intros self Hrun Hns Hlen.
  - destruct (action_queue self) eqn:Hq; [done | simpl in Hlen; lia].
  - rewrite process_actions_turn by done.
    change (result (prefixed ?ev ?x)) with (result x).
    change (after (prefixed ?ev ?x)) with (after x).
    destruct (action_queue self) as [| action rest] eqn:Hq.
    + rewrite (turn_empty self Hq).
      change (after (Ret tt, self, [])) with self.
      apply IH; [done | by rewrite Hq | rewrite Hq; simpl; lia].
    + apply Forall_cons in Hns as [Hns Hrest].
      destruct (turn_step self action rest Hrun Hq Hns) as [Hq' Hrun'].
      apply IH; [done | by rewrite Hq' | rewrite Hq'; simpl in Hlen; lia].
Qed.

Lemma worker_drains_queue_witness :
  let self :=
    running_system
      [PValue (VStr "spray"); spray_pesticide 10;
       PDict {[ "type" := VStr "adjust_camera"; "angle" := VInt 400 ]}] in
  result (_process_actions 3 self) = Ret tt
  ∧ action_queue (after (_process_actions 3 self)) = []
  ∧ is_running (after (_process_actions 3 self)) = true.
Proof.
  apply (worker_drains_queue 3
           (running_system
              [PValue (VStr "spray"); spray_pesticide 10;
               PDict {[ "type" := VStr "adjust_camera"; "angle" := VInt 400 ]}])).
  - reflexivity.
  - repeat constructor.
  - simpl. lia.
Defined.

(** [cleanup] without a GPIO module only logs. *)
Lemma cleanup_no_gpio rc :
  RelayController.gpio rc = None →
  RelayController.cleanup rc = (Ret tt, rc, [Log INFO GpioCleanupCompleted]).
Proof.
  intros Hg. unfold RelayController.cleanup, RelayController.if_gpio. run.
  by rewrite Hg.
Qed.

Lemma stop_system_returns : returns stop_system.
Proof. unfold stop_system. auto with returns. Qed.

Lemma stop_system_after self :
  after (stop_system self) =
  set_is_running false
    (set_sensor_controller
       (SensorController.set_running false (sensor_controller self)) self).
Proof.
  pose proof (cleanup_keeps (relay_controller self)) as Hk.
  unfold stop_system, sensor, relay, SensorController.stop_sensor_monitoring. run.
  destruct (RelayController.cleanup (relay_controller self)) as [[[[] | e] rc'] ev];
    simpl in *; subst rc'; by destruct self.
Qed.

(** X12: [stop_system] always returns, clears [is_running] and the
    sensors' [running] flag, and changes nothing else: the configuration,
    the motor, the queue and the whole relay controller are as before, so
    a relay recorded active before the stop is still recorded active after
    it (the cleanup drives the hardware, never the record). *)
Theorem stop_system_effect (self : t) :
  result (stop_system self) = Ret tt
  ∧ after (stop_system self) =
    set_is_running false
      (set_sensor_controller
         (SensorController.set_running false (sensor_controller self)) self)
  ∧ ∀ pin,
      RelayController.get_relay_state (relay_controller (after (stop_system self))) pin
      = RelayController.get_relay_state (relay_controller self) pin.
Proof.
  split; [| split].
  - by destruct (stop_system_returns self) as [[] ?].
  - apply stop_system_after.
  - intros pin. by rewrite stop_system_after.
Qed.

End worker_more.

(** ** PestManagementSystem: the emergency shutdown *)

Section shutdown.
Import PestManagementSystem.

(** The relay controller after deactivating the pins [l] one by one. *)
Lemma all_deactivated_lookup l rc p :
  RelayController.relay_states
    (foldl (λ rc p, RelayController.set_relay_states <[p := false]> rc) rc l) !! p =
  if bool_decide (p ∈ l) then Some false else RelayController.relay_states rc !! p.
Proof.
  revert rc. induction l as [| q l IH]; intros rc; simpl.
  - done.
  - rewrite IH. simpl. destruct (decide (p = q)) as [-> | Hne].
    + rewrite (bool_decide_eq_true_2 (q ∈ q :: l)) by left.
      rewrite lookup_insert_eq. by case_bool_decide.
    + rewrite lookup_insert_ne by done.
      rewrite (bool_decide_ext (p ∈ q :: l) (p ∈ l)); [done |].
      rewrite elem_of_cons. split; [by intros [-> | ?] | by right].
Qed.

Lemma all_deactivated_fields l rc :
  RelayController.relay_pins
    (foldl (λ rc p, RelayController.set_relay_states <[p := false]> rc) rc l)
  = RelayController.relay_pins rc
  ∧ RelayController.gpio
      (foldl (λ rc p, RelayController.set_relay_states <[p := false]> rc) rc l)
    = RelayController.gpio rc.
Proof.
  revert rc. induction l as [| q l IH]; intros rc; simpl; [done |].
  by rewrite !(proj1 (IH _)), !(proj2 (IH _)).
Qed.

Lemma shutdown_loop l s :
  RelayController.gpio (relay_controller s) = None →
  (∀ p, p ∈ l → p ∈ RelayController.relay_pins (relay_controller s)) →
  for_each l (λ pin, relay (RelayController.deactivate_relay pin)) s =
  (Ret tt,
   set_relay_controller
     (foldl (λ rc p, RelayController.set_relay_states <[p := false]> rc)
        (relay_controller s) l) s,
   (λ p, Log INFO (RelayDeactivated p)) <$> l).
Proof.
  revert s. induction l as [| p l IH]; intros s Hg Hl.
  - simpl. by destruct s.
  - change (for_each (p :: l) (λ pin, relay (RelayController.deactivate_relay pin)))
      with (relay (RelayController.deactivate_relay p) ;;
            for_each l (λ pin, relay (RelayController.deactivate_relay pin))).
    assert (relay (RelayController.deactivate_relay p) s =
            (Ret tt,
             set_relay_controller
               (RelayController.set_relay_states <[p := false]> (relay_controller s)) s,
             [Log INFO (RelayDeactivated p)])) as Hstep.
    { unfold relay, on_field. rewrite deactivate_relay_valid.
      - by rewrite Hg.
      - apply Hl. left.
      - intros g Hg'. congruence. }
    rewrite (run_bind_ret _ _ _ _ _ _ Hstep).
    rewrite IH.
    + unfold result, after, events; simpl. by destruct s.
    + by destruct s.
    + intros q Hq. destruct s; simpl in *. apply Hl. by right.
Qed.


Lemma emergency_shutdown_run s :
  system_wf s →
  after (_emergency_shutdown s) =
    set_is_running false
      (set_sensor_controller
         (SensorController.set_running false (sensor_controller s))
         (set_relay_controller
            (foldl (λ rc p, RelayController.set_relay_states <[p := false]> rc)
               (relay_controller s) (Config.relay_pins (config s))) s))
  ∧ result (_emergency_shutdown s) = Ret tt.
Proof.
  intros (Hpins & Hg & Hwf).
  change _emergency_shutdown
    with (log WARNING EmergencyShutdownActivated ;;
          self ← get;
          for_each (Config.relay_pins (config self))
            (λ pin, relay (RelayController.deactivate_relay pin)) ;;
          stop_system).
  rewrite (run_bind_ret _ _ s tt s [Log WARNING EmergencyShutdownActivated]) by done.
  rewrite (run_bind_ret _ _ s s s []) by done.
  rewrite (run_bind_ret _ _ _ _ _ _
             (shutdown_loop (Config.relay_pins (config s)) s Hg
                ltac:(by rewrite Hpins))).
  unfold result, after, events; simpl.
  pose proof (stop_system_after
                (set_relay_controller
                   (foldl (λ rc p, RelayController.set_relay_states <[p := false]> rc)
                      (relay_controller s) (Config.relay_pins (config s))) s)) as Ha.
  destruct (stop_system_returns
              (set_relay_controller
                 (foldl (λ rc p, RelayController.set_relay_states <[p := false]> rc)
                    (relay_controller s) (Config.relay_pins (config s))) s))
    as [[] Hr].
  unfold result, after in *. by rewrite Ha, Hr.
Qed.

(** X13: an emergency shutdown halts the dispatcher for good.  On a running
    system (built as the constructor builds it), a turn that pops an
    emergency_shutdown action leaves every relay recorded off, clears
    [is_running] and the sensors' flag, and the loop then ends: however
    many more turns it is given, the actions queued behind the shutdown
    stay in the queue, unexecuted. *)
Theorem emergency_shutdown_halts (self : t) (d : gmap string value)
    (rest : list pyobj) (fuel : nat) :
  system_wf self → is_running self = true →
  action_queue self = PDict d :: rest →
  dict_get d "type" VNone = VStr "emergency_shutdown" →
  let final := after (_process_actions (S fuel) self) in
  result (_process_actions (S fuel) self) = Ret tt
  ∧ is_running final = false
  ∧ SensorController.running (sensor_controller final) = false
  ∧ action_queue final = rest
  ∧ ∀ pin, RelayController.get_relay_state (relay_controller final) pin = false.
Proof.
  intros Hwf Hrun Hq Hty. cbv zeta.
  rewrite process_actions_turn by done.
  change (result (prefixed ?ev ?x)) with (result x).
  change (after (prefixed ?ev ?x)) with (after x).
  assert (system_wf (set_action_queue rest self)) as Hwf' by by destruct self.
  destruct (emergency_shutdown_run _ Hwf') as [Hafter Hres].
  assert (turn self =
          (Ret tt, after (_emergency_shutdown (set_action_queue rest self)),
           events (_emergency_shutdown (set_action_queue rest self)))) as Hturn.
  { rewrite (turn_pops self (PDict d) rest Hq).
    unfold _execute_action. simpl obj_get. rewrite Hty.
    rewrite (run_bind_ret _ _ _ (VStr "emergency_shutdown") (set_action_queue rest self) [])
      by done.
    change (eq_str (VStr "emergency_shutdown") "spray_pesticide") with false.
    change (eq_str (VStr "emergency_shutdown") "activate_trap") with false.
    change (eq_str (VStr "emergency_shutdown") "adjust_camera") with false.
    change (eq_str (VStr "emergency_shutdown") "emergency_shutdown") with true.
    cbv iota. unfold try_except, result, after, events in *.
    destruct (_emergency_shutdown (set_action_queue rest self)) as [[r s] ev].
    simpl in *. by subst r. }
  rewrite Hturn. change (after (Ret tt, ?s, ?ev)) with s.
  rewrite process_stopped by (by rewrite Hafter).
  change (after (Ret tt, ?s, ?ev)) with s.
  rewrite Hafter. split; [done |]. split; [done |]. split; [done |].
  split; [by destruct self |].
  intros pin. unfold RelayController.get_relay_state. simpl.
  rewrite all_deactivated_lookup. destruct Hwf as (Hpins & Hg & Hwf).
  case_bool_decide as Hin; [done |].
  destruct (RelayController.relay_states (relay_controller self) !! pin) eqn:E;
    [| done].
  destruct Hin. rewrite <- Hpins. apply Hwf. by eexists.
Qed.

Lemma fresh_system_wf queue : system_wf (running_system queue).
Proof.
  split; [done |]. split; [done |]. intros pin. simpl.
  rewrite all_off_lookup. case_bool_decide.
  - split; [done | by eexists].
  - split; [by intros [? ?] | done].
Qed.

Lemma emergency_shutdown_halts_witness :
  let self :=
    running_system [PDict {[ "type" := VStr "emergency_shutdown" ]}; spray_pesticide 10] in
  let final := after (_process_actions 5 self) in
  result (_process_actions 5 self) = Ret tt
  ∧ is_running final = false
  ∧ SensorController.running (sensor_controller final) = false
  ∧ action_queue final = [spray_pesticide 10]
  ∧ ∀ pin, RelayController.get_relay_state (relay_controller final) pin = false.
Proof.
  apply (emergency_shutdown_halts
           (running_system
              [PDict {[ "type" := VStr "emergency_shutdown" ]}; spray_pesticide 10])
           {[ "type" := VStr "emergency_shutdown" ]} [spray_pesticide 10] 4).
  - apply fresh_system_wf.
  - reflexivity.
  - reflexivity.
  - reflexivity.
Defined.

End shutdown.

(** ** PestManagementSystem: what the actions reach *)

Section actions_more.
Import PestManagementSystem.

Lemma relay_refused self pin duration :
  pin ∉ RelayController.relay_pins (relay_controller self) →
  relay (RelayController.activate_relay pin duration) self =
  (Ret tt, self, [Log ERROR (ErrorActivatingRelay pin (InvalidRelayPin pin))]).
Proof.
  intros Hpin. unfold relay, on_field.
  rewrite activate_relay_invalid by done. by destruct self.
Qed.

(** Executing a dict whose kind is [kind]: the dispatch goes to [handler]. *)
Lemma execute_dispatch d self kind (handler : M t unit) :
  dict_get d "type" VNone = VStr kind →
  (if eq_str (VStr kind) "spray_pesticide" then
     duration ← obj_get (PDict d) "duration" (VInt 5); _spray_pesticide duration
   else if eq_str (VStr kind) "activate_trap" then
     duration ← obj_get (PDict d) "duration" (VInt 30); _activate_trap duration
   else if eq_str (VStr kind) "adjust_camera" then
     angle ← obj_get (PDict d) "angle" (VInt 90); _adjust_camera angle
   else if eq_str (VStr kind) "emergency_shutdown" then _emergency_shutdown
   else log WARNING (UnknownActionType (VStr kind))) = handler →
  _execute_action (PDict d) self =
  try_except handler (λ e, log ERROR (ErrorExecutingAction (VStr kind) e)) self.
Proof.
  intros Hty <-. unfold _execute_action. simpl obj_get. rewrite Hty.
  rewrite (run_bind_ret _ _ _ (VStr kind) self []) by done.
  unfold result, after, events.
  by destruct (try_except _ _ self) as [[r s] ev].
Qed.

(** A spray or trap action on a controller without pins 0 and 1, run in
    full: the system is left as it was. *)
Lemma execute_response_refused self d :
  0%Z ∉ RelayController.relay_pins (relay_controller self) →
  1%Z ∉ RelayController.relay_pins (relay_controller self) →
  dict_get d "type" VNone = VStr "spray_pesticide"
  ∨ dict_get d "type" VNone = VStr "activate_trap" →
  ∃ ev,
    _execute_action (PDict d) self = (Ret tt, self, ev)
    ∧ timers ev = [] ∧ gpio_calls ev = []
    ∧ ∃ pin, Log ERROR (ErrorActivatingRelay pin (InvalidRelayPin pin)) ∈ ev.
Proof.
  intros H0 H1 [Hty | Hty].
  - rewrite (execute_dispatch d self "spray_pesticide" _ Hty eq_refl).
    unfold try_except, _spray_pesticide. simpl obj_get.
    rewrite (run_bind_ret _ _ _ _ self [] eq_refl).
    rewrite (run_bind_ret _ _ _ tt self
               [Log INFO (SprayingPesticide (dict_get d "duration" (VInt 5)))] eq_refl).
    rewrite relay_refused by done. unfold result, after, events; simpl.
    eexists. repeat split; try done. exists 0%Z. set_solver.
  - rewrite (execute_dispatch d self "activate_trap" _ Hty eq_refl).
    unfold try_except, _activate_trap. simpl obj_get.
    rewrite (run_bind_ret _ _ _ _ self [] eq_refl).
    rewrite (run_bind_ret _ _ _ tt self
               [Log INFO (ActivatingTrap (dict_get d "duration" (VInt 30)))] eq_refl).
    rewrite relay_refused by done. unfold result, after, events; simpl.
    eexists. repeat split; try done. exists 1%Z. set_solver.
Qed.

(** X14: spray and trap actions address the relays numbered 0 and 1.  On a
    controller where 0 and 1 are not configured pins (the default pins are
    18 to 21), executing a spray_pesticide or an activate_trap action,
    whatever its duration, returns after logging the refusal and leaves
    the whole system as it was: no relay state changes, no GPIO call is
    made, no timer is started. *)
Theorem response_switches_nothing (self : t) (d : gmap string value) :
  0%Z ∉ RelayController.relay_pins (relay_controller self) →
  1%Z ∉ RelayController.relay_pins (relay_controller self) →
  dict_get d "type" VNone = VStr "spray_pesticide"
  ∨ dict_get d "type" VNone = VStr "activate_trap" →
  result (_execute_action (PDict d) self) = Ret tt
  ∧ after (_execute_action (PDict d) self) = self
  ∧ timers (events (_execute_action (PDict d) self)) = []
  ∧ gpio_calls (events (_execute_action (PDict d) self)) = []
  ∧ ∃ pin, Log ERROR (ErrorActivatingRelay pin (InvalidRelayPin pin))
           ∈ events (_execute_action (PDict d) self).
Proof.
  intros H0 H1 Hty.
  destruct (execute_response_refused self d H0 H1 Hty) as (ev & -> & Ht & Hg & He).
  done.
Qed.

Lemma response_switches_nothing_witness :
  let self := running_system [] in
  let d : gmap string value :=
    {[ "type" := VStr "spray_pesticide"; "duration" := VInt 10 ]} in
  result (_execute_action (PDict d) self) = Ret tt
  ∧ after (_execute_action (PDict d) self) = self
  ∧ timers (events (_execute_action (PDict d) self)) = []
  ∧ gpio_calls (events (_execute_action (PDict d) self)) = []
  ∧ ∃ pin, Log ERROR (ErrorActivatingRelay pin (InvalidRelayPin pin))
           ∈ events (_execute_action (PDict d) self).
Proof.
  apply (response_switches_nothing (running_system [])
           {[ "type" := VStr "spray_pesticide"; "duration" := VInt 10 ]}).
  - apply (bool_decide_unpack _). vm_compute. exact I.
  - apply (bool_decide_unpack _). vm_compute. exact I.
  - left. reflexivity.
Defined.

Lemma move_servo_position angle servo_id mc :
  MotorController.get_position (after (MotorController.move_servo angle servo_id mc)) =
  match angle_in_range angle with
  | Ret true => angle
  | _ => MotorController.get_position mc
  end.
Proof.
  unfold MotorController.move_servo, MotorController.get_position. run.
  by destruct (angle_in_range angle) as [[] | e].
Qed.

(** X15: an adjust_camera action moves the one motor as a servo: the new
    position is the action's angle when that is a number with
    [0 <= angle <= 180], and 90 when the action has no angle; with any
    other angle (out of range, or no number) the position stays as it was.
    Either way the action returns, and relays, queue and [is_running] are
    untouched. *)
Theorem adjust_camera_effect (self : t) (d : gmap string value) :
  dict_get d "type" VNone = VStr "adjust_camera" →
  let angle := dict_get d "angle" (VInt 90) in
  let final := after (_execute_action (PDict d) self) in
  result (_execute_action (PDict d) self) = Ret tt
  ∧ MotorController.get_position (motor_controller final) =
    match angle_in_range angle with
    | Ret true => angle
    | _ => MotorController.get_position (motor_controller self)
    end
  ∧ relay_controller final = relay_controller self
  ∧ action_queue final = action_queue self
  ∧ is_running final = is_running self.
Proof.
  intros Hty. cbv zeta.
  destruct (execute_dict_returns d self) as [[] Hret].
  split; [done |].
  rewrite (execute_dispatch d self "adjust_camera" _ Hty eq_refl).
  unfold try_except, _adjust_camera. simpl obj_get.
  rewrite (run_bind_ret _ _ _ _ self [] eq_refl).
  rewrite (run_bind_ret _ _ _ tt self
             [Log INFO (AdjustingCamera (dict_get d "angle" (VInt 90)))] eq_refl).
  pose proof (move_servo_position (dict_get d "angle" (VInt 90)) 0
                (motor_controller self)) as Hpos.
  destruct (move_servo_returns (dict_get d "angle" (VInt 90)) 0 (motor_controller self))
    as [[] Hr].
  unfold motor, on_field, result, after, events in *.
  destruct (MotorController.move_servo _ 0 (motor_controller self)) as [[r mc] ev].
  simpl in *. subst r. simpl. by destruct self.
Qed.

Lemma adjust_camera_effect_witness :
  let self := running_system [] in
  let d : gmap string value := {[ "type" := VStr "adjust_camera" ]} in
  let angle := dict_get d "angle" (VInt 90) in
  let final := after (_execute_action (PDict d) self) in
  result (_execute_action (PDict d) self) = Ret tt
  ∧ MotorController.get_position (motor_controller final) =
    match angle_in_range angle with
    | Ret true => angle
    | _ => MotorController.get_position (motor_controller self)
    end
  ∧ relay_controller final = relay_controller self
  ∧ action_queue final = action_queue self
  ∧ is_running final = is_running self.
Proof.
  apply (adjust_camera_effect (running_system []) {[ "type" := VStr "adjust_camera" ]}).
  reflexivity.
Defined.

(** X16: [start_system] never looks at [is_running]: whether or not the
    system is already started, it returns after setting both running
    flags and spawning one polling thread per configured sensor, in
    configuration order, and then one more dispatcher thread; relays,
    motor and queue are untouched.  Started twice, the system has two
    dispatchers on one queue. *)
Theorem start_system_spawns (self : t) :
  start_system self =
  (Ret tt,
   set_sensor_controller
     (SensorController.set_running true (sensor_controller self))
     (set_is_running true self),
   concat ((λ '(sensor_name, _),
              [ThreadStart sensor_name; Log INFO (StartedMonitoring sensor_name)])
           <$> SensorController.sensor_configs (sensor_controller self))
   ++ [ThreadStart "_process_actions"; Log INFO SystemStarted]).
Proof.
  unfold start_system, sensor, SensorController.start_sensor_monitoring. run.
  rewrite (for_each_events _ _
             (λ '(sensor_name, _),
                [ThreadStart sensor_name; Log INFO (StartedMonitoring sensor_name)])).
  - done.
  - by intros [sensor_name cfg].
Qed.

End actions_more.

(** ** The risk policy: order of detections, odd confidences and thresholds *)

Section policy_more.
Import PestManagementSystem.

(** X17: detections are queued first come, first served: after any
    sequence of [trigger_pest_response] calls the queue holds what it held
    before, followed by the bundle of each detection in the order the
    detections came; a later high-risk detection never overtakes an
    earlier one, and no call raises. *)
Theorem detections_queue_in_order (self : t)
    (detections : list (value * float * (value * value))) :
  for_each detections
    (λ '(pest_type, confidence, location),
       trigger_pest_response pest_type confidence location) self =
  (Ret tt,
   set_action_queue
     (action_queue self
      ++ concat ((λ '(_, confidence, _),
                    bundle (classify (Config.pest_thresholds (config self)) confidence))
                 <$> detections)) self,
   (λ '(pest_type, confidence, _),
      Log INFO (TriggeredPestResponse pest_type confidence)) <$> detections).
Proof.
  revert self. induction detections as [| [[p c] l] detections IH]; intros self.
  - simpl. rewrite app_nil_r. by destruct self.
  - change (for_each (((p, c), l) :: detections) ?body)
      with (body ((p, c), l) ;; for_each detections body).
    rewrite (run_bind_ret _ _ _ _ _ _ (trigger_pest_response_classify self p c l)).
    rewrite IH. unfold result, after, events; simpl.
    rewrite <- app_assoc. by destruct self.
Qed.

(** Nothing is at most NaN. *)
Lemma leb_nan (x y : float) : is_nan y = true → (x <=? y)%float = false.
Proof.
  intros Hy%is_nan_true. rewrite leb_spec, Hy. unfold SFleb.
  by destruct (Prim2SF x).
Qed.

(** X18: a confidence that is NaN gets the low-risk response: both
    threshold comparisons are false, so [trigger_pest_response] queues
    activate_trap(15) alone, whatever the thresholds. *)
Theorem nan_confidence_is_low (self : t) (pest_type : value) (confidence : float)
    (location : value * value) :
  is_nan confidence = true →
  after (trigger_pest_response pest_type confidence location self) =
  set_action_queue (action_queue self ++ [activate_trap 15]) self.
Proof.
  intros Hnan. rewrite trigger_pest_response_classify. unfold classify.
  by rewrite !(leb_nan _ _ Hnan).
Qed.

Lemma nan_confidence_is_low_witness :
  after (trigger_pest_response (VStr "aphid") nan (VInt 0, VInt 0) fresh_system) =
  set_action_queue (action_queue fresh_system ++ [activate_trap 15]) fresh_system.
Proof.
  apply (nan_confidence_is_low fresh_system (VStr "aphid") nan (VInt 0, VInt 0)).
  reflexivity.
Defined.

(** X19: the thresholds are never checked against each other.  When
    [high_risk <= medium_risk] is configured, no confidence gets the medium
    response: whatever passes the medium test passes the high one first,
    so every detection queues either the high bundle or the low one. *)
Theorem misordered_thresholds_skip_medium (self : t) (pest_type : value)
    (confidence : float) (location : value * value) :
  let thresholds := Config.pest_thresholds (config self) in
  (Config.high_risk thresholds <=? Config.medium_risk thresholds)%float = true →
  classify thresholds confidence ≠ medium
  ∧ (after (trigger_pest_response pest_type confidence location self) =
       set_action_queue
         (action_queue self ++ [spray_pesticide 10; activate_trap 60]) self
     ∨ after (trigger_pest_response pest_type confidence location self) =
       set_action_queue (action_queue self ++ [activate_trap 15]) self).
Proof.
  cbv zeta. intros Hhm. rewrite trigger_pest_response_classify. unfold classify.
  destruct (Config.high_risk _ <=? confidence)%float eqn:Hh.
  { split; [done | by left]. }
  destruct (Config.medium_risk _ <=? confidence)%float eqn:Hm.
  { by rewrite (leb_trans _ _ _ Hhm Hm) in Hh. }
  split; [done | by right].
Qed.

Lemma misordered_thresholds_skip_medium_witness :
  let self :=
    mk (Config.mk [18; 19; 20; 21]%Z ∅ []
          (Config.mk_thresholds 0x1p-1 0x1.999999999999ap-1 0x1.3333333333333p-2))
       fresh_relays (MotorController.__init__ ∅ "stepper")
       (SensorController.__init__ []) [] false in
  let thresholds := Config.pest_thresholds (config self) in
  classify thresholds 0x1.3333333333333p-1 ≠ medium
  ∧ (after (trigger_pest_response (VStr "aphid") 0x1.3333333333333p-1
              (VInt 0, VInt 0) self) =
       set_action_queue
         (action_queue self ++ [spray_pesticide 10; activate_trap 60]) self
     ∨ after (trigger_pest_response (VStr "aphid") 0x1.3333333333333p-1
                (VInt 0, VInt 0) self) =
       set_action_queue (action_queue self ++ [activate_trap 15]) self).
Proof.
  apply (misordered_thresholds_skip_medium
           (mk (Config.mk [18; 19; 20; 21]%Z ∅ []
                  (Config.mk_thresholds 0x1p-1 0x1.999999999999ap-1
                     0x1.3333333333333p-2))
               fresh_relays (MotorController.__init__ ∅ "stepper")
               (SensorController.__init__ []) [] false)
           (VStr "aphid") 0x1.3333333333333p-1 (VInt 0, VInt 0)).
  reflexivity.
Defined.

End policy_more.

(** ** RelayController: cleanup *)

Section cleanup_more.
Import RelayController.

(** X20: with a GPIO module whose calls all succeed, [cleanup] drives
    every configured pin HIGH, in pin order, and then releases the driver;
    the recorded states are not touched, so a relay that was active reads
    active after the cleanup although its pin has been driven to the
    inactive level. *)
Theorem cleanup_drives_not_records (self : t) (g : gpio_module) :
  gpio self = Some g → (∀ c, g c = None) →
  cleanup self =
  (Ret tt, self,
   ((λ pin, Gpio (Output pin HIGH)) <$> relay_pins self)
   ++ [Gpio Cleanup; Log INFO GpioCleanupCompleted]).
Proof.
  intros Hg Hok. unfold cleanup, if_gpio, call. run. rewrite Hg. simpl.
  rewrite (for_each_events (relay_pins self) _ (λ pin, [Gpio (Output pin HIGH)])).
  - assert (∀ l : list Z,
              concat ((λ pin, [Gpio (Output pin HIGH)]) <$> l)
              = (λ pin, Gpio (Output pin HIGH)) <$> l) as ->.
    { induction l as [| p l IH]; [done |]. simpl. f_equal. exact IH. }
    simpl. rewrite Hok. simpl. by rewrite <- !app_assoc.
  - intros pin. run. by rewrite Hok.
Qed.

Lemma cleanup_drives_not_records_witness :
  let self := mk [18; 19]%Z (Some (λ _, None)) (<[18%Z := true]> (all_off [18; 19]%Z)) in
  cleanup self =
  (Ret tt, self,
   ((λ pin, Gpio (Output pin HIGH)) <$> relay_pins self)
   ++ [Gpio Cleanup; Log INFO GpioCleanupCompleted]).
Proof.
  apply (cleanup_drives_not_records
           (mk [18; 19]%Z (Some (λ _, None)) (<[18%Z := true]> (all_off [18; 19]%Z)))
           (λ _, None)).
  - reflexivity.
  - intros c. reflexivity.
Defined.

End cleanup_more.

(** ** The status report *)

Section status.
Import PestManagementSystem.

Lemma relay_report_lookup rc pins (report : gmap Z bool) pin :
  foldl (λ report pin, <[pin := RelayController.get_relay_state rc pin]> report)
    report pins !! pin =
  if bool_decide (pin ∈ pins) then Some (RelayController.get_relay_state rc pin)
  else report !! pin.
Proof.
  revert report. induction pins as [| p pins IH]; intros report; simpl; [done |].
  rewrite IH. destruct (decide (pin = p)) as [-> | Hne].
  - rewrite (bool_decide_eq_true_2 (p ∈ p :: pins)) by left.
    rewrite lookup_insert_eq. by case_bool_decide.
  - rewrite lookup_insert_ne by done.
    rewrite (bool_decide_ext (pin ∈ p :: pins) (pin ∈ pins)); [done |].
    rewrite elem_of_cons. split; [by intros [-> | ?] | by right].
Qed.

(** X21: the status a system reports shows exactly the relay controller's
    record: for a system built as the constructor builds it, the
    [relay_states] entry of [get_system_status] is the controller's state
    dict itself, one entry per configured pin and no other, whatever the
    sensor readings and the clock are. *)
Theorem status_reports_relay_record (self : t)
    (sensor_data : gmap string (gmap string value)) (now : string) :
  system_wf self →
  status_relay_states (get_system_status self sensor_data now)
  = RelayController.relay_states (relay_controller self)
  ∧ ∀ pin, is_Some (status_relay_states (get_system_status self sensor_data now) !! pin)
           ↔ pin ∈ Config.relay_pins (config self).
Proof.
  intros (Hpins & Hg & Hwf).
  assert (status_relay_states (get_system_status self sensor_data now)
          = RelayController.relay_states (relay_controller self)) as Heq.
  { apply map_eq. intros pin. simpl. unfold relay_report.
    rewrite relay_report_lookup, lookup_empty. unfold RelayController.get_relay_state.
    case_bool_decide as Hin.
    - rewrite <- Hpins in Hin. apply Hwf in Hin as [b ->]. done.
    - destruct (RelayController.relay_states (relay_controller self) !! pin) eqn:E;
        [| done].
      destruct Hin. rewrite <- Hpins. apply Hwf. by eexists. }
  split; [done |]. intros pin. rewrite Heq, <- Hpins. apply Hwf.
Qed.

Lemma status_reports_relay_record_witness :
  let self := running_system [] in
  status_relay_states (get_system_status self ∅ "2024-01-01T00:00:00")
  = RelayController.relay_states (relay_controller self)
  ∧ ∀ pin, is_Some (status_relay_states
                      (get_system_status self ∅ "2024-01-01T00:00:00") !! pin)
           ↔ pin ∈ Config.relay_pins (config self).
Proof.
  apply (status_reports_relay_record (running_system []) ∅ "2024-01-01T00:00:00").
  apply fresh_system_wf.
Defined.

End status.

(** ** The dashboard backend *)

Section dashboard.
Import Dashboard.

Lemma record_detection_drop {A} (entry : A) (l : list A) :
  let n := length l in
  record_detection entry (drop (n - 100) l) = drop (S n - 100) (l ++ [entry]).
Proof.
  simpl. unfold record_detection.
  rewrite length_app, length_drop. simpl.
  rewrite <- (drop_app_le l [entry]) by lia.
  case_match eqn:Hlt.
  - apply Z.ltb_lt in Hlt. rewrite drop_drop. f_equal. lia.
  - apply Z.ltb_ge in Hlt. f_equal. lia.
Qed.

(** X22: the detection history keeps the last 100 detections, oldest
    first: after recording any sequence of entries, starting empty, it
    holds the sequence without all but its last 100 entries, so it never
    grows beyond 100 and always ends with the newest entry. *)
Theorem detection_history_last_100 {A} (entries : list A) :
  foldl (λ detection_history entry, record_detection entry detection_history)
    [] entries
  = drop (length entries - 100) entries
  ∧ length (foldl (λ detection_history entry,
                     record_detection entry detection_history) [] entries)
    = length entries `min` 100.
Proof.
  assert (foldl (λ detection_history entry,
                   record_detection entry detection_history) [] entries
          = drop (length entries - 100) entries) as Heq.
  { induction entries as [| entry entries IH] using rev_ind; [done |].
    rewrite foldl_app. simpl. rewrite IH, length_app. simpl.
    rewrite record_detection_drop. f_equal. lia. }
  split; [done |]. rewrite Heq, length_drop. lia.
Qed.

(** X23: [get_detections(limit)] returns the last [limit] entries (all of
    them when fewer are held) for [limit >= 1]; for [limit = 0] it returns
    the whole history, not an empty list, since [-0] slices from the
    start; for a negative limit it returns the history without its first
    [-limit] entries.  The total is always the full length. *)
Theorem get_detections_slice {A} (limit : Z) (detection_history : list A) :
  get_detections limit detection_history =
  (if (limit =? 0)%Z then detection_history
   else if (0 <? limit)%Z
        then drop (length detection_history - Z.to_nat limit) detection_history
        else drop (Z.to_nat (- limit)) detection_history,
   length detection_history).
Proof.
  unfold get_detections, slice_from. f_equal.
  destruct (Z.eqb_spec limit 0) as [-> | Hne].
  { change (- 0 <? 0)%Z with false. cbv iota.
    replace (Z.to_nat _) with 0%nat by lia. done. }
  destruct (Z.ltb_spec 0 limit) as [Hpos | Hneg].
  - rewrite (proj2 (Z.ltb_lt (- limit) 0)) by lia. f_equal. lia.
  - rewrite (proj2 (Z.ltb_ge (- limit) 0)) by lia.
    destruct (decide (- limit ≤ Z.of_nat (length detection_history))%Z).
    + f_equal. lia.
    + rewrite !drop_ge by lia. done.
Qed.

Context `{EqDecision A}.

Lemma list_remove_middle (kept rest : list A) (c : A) :
  c ∉ kept → list_remove c (kept ++ c :: rest) = kept ++ rest.
Proof.
  induction kept as [| x kept IH]; intros Hc; simpl.
  - by rewrite decide_True.
  - rewrite decide_False by set_solver. f_equal. apply IH. set_solver.
Qed.

Lemma broadcast_loop_end (delivers : A → bool) fuel i (l : list A) :
  length l ≤ i → broadcast_loop delivers fuel i l = (l, []).
Proof.
  intros Hi. destruct fuel; [done |]. simpl.
  by rewrite lookup_ge_None_2.
Qed.

Lemma broadcast_loop_swept (delivers : A → bool) fuel (kept rest : list A) :
  NoDup (kept ++ rest) → length rest ≤ fuel →
  broadcast_loop delivers fuel (length kept) (kept ++ rest)
  = (kept ++ swept delivers rest, visited delivers rest).
Proof.
  revert kept rest. induction fuel as [| fuel IH]; intros kept rest Hnd Hlen.
  - destruct rest; [done | simpl in Hlen; lia].
  - destruct rest as [| c rest].
    { rewrite broadcast_loop_end; [done |]. rewrite app_nil_r. lia. }
    simpl in Hlen. simpl broadcast_loop.
    rewrite list_lookup_middle by done.
    assert (c ∉ kept) as Hc.
    { apply NoDup_app in Hnd as (_ & Hdisj & _). intros Hin.
      apply (Hdisj c Hin). left. }
    destruct (delivers c) eqn:Hd; simpl swept; simpl visited; rewrite ?Hd.
    + replace (kept ++ c :: rest) with ((kept ++ [c]) ++ rest)
        by by rewrite <- app_assoc.
      replace (S (length kept)) with (length (kept ++ [c]))
        by (rewrite length_app; simpl; lia).
      rewrite IH; [by rewrite <- app_assoc | by rewrite <- app_assoc | lia].
    + rewrite list_remove_middle by done.
      assert (NoDup (kept ++ rest)) as Hnd'.
      { apply NoDup_app in Hnd as (Hk & Hdisj & Hr).
        apply NoDup_cons in Hr as [_ Hr]. apply NoDup_app.
        split; [done |]. split; [| done].
        intros x Hx Hx'. apply (Hdisj x Hx). by right. }
      destruct rest as [| y rest].
      { rewrite broadcast_loop_end; [done |]. rewrite app_nil_r. lia. }
      replace (kept ++ y :: rest) with ((kept ++ [y]) ++ rest)
        by by rewrite <- app_assoc.
      replace (S (length kept)) with (length (kept ++ [y]))
        by (rewrite length_app; simpl; lia).
      rewrite IH; [by rewrite <- app_assoc | by rewrite <- app_assoc |].
      simpl in Hlen. lia.
Qed.

Lemma swept_keeps_live (delivers : A → bool) (l : list A) :
  (∀ x, x ∈ l → delivers x = true → x ∈ swept delivers l)
  ∧ ∀ a x, x ∈ a :: l → delivers x = true → x ∈ swept delivers (a :: l).
Proof.
  induction l as [| b l [IH1 IH2]].
  - split; [by intros x Hx%elem_of_nil |].
    intros a x Hx%list_elem_of_singleton Hd. subst x. simpl. rewrite Hd. left.
  - split; [apply IH2 |]. intros a x Hx Hd.
    change (swept delivers (a :: b :: l))
      with (if delivers a then a :: swept delivers (b :: l)
            else b :: swept delivers l).
    apply elem_of_cons in Hx as [-> | Hx].
    + rewrite Hd. left.
    + destruct (delivers a).
      * right. by apply IH2.
      * apply elem_of_cons in Hx as [-> | Hx]; [left | right; by apply IH1].
Qed.

(** Both lists are drawn from the connections. *)
Lemma swept_visited_subseteq (delivers : A → bool) (l : list A) :
  (∀ x, x ∈ swept delivers l → x ∈ l) ∧ (∀ x, x ∈ visited delivers l → x ∈ l)
  ∧ ∀ a, (∀ x, x ∈ swept delivers (a :: l) → x ∈ a :: l)
         ∧ (∀ x, x ∈ visited delivers (a :: l) → x ∈ a :: l).
Proof.
  induction l as [| b l (IH1 & IH2 & IH3)].
  - split; [intros x Hx; by apply elem_of_nil in Hx |].
    split; [intros x Hx; by apply elem_of_nil in Hx |].
    intros a. split; intros x; simpl.
    + destruct (delivers a); [done |]. intros Hx. by apply elem_of_nil in Hx.
    + by destruct (delivers a).
  - destruct (IH3 b) as [IH3s IH3v].
    split; [done |]. split; [done |]. intros a. split; intros x.
    + change (swept delivers (a :: b :: l))
        with (if delivers a then a :: swept delivers (b :: l)
              else b :: swept delivers l).
      destruct (delivers a); intros [-> | Hx]%elem_of_cons.
      * left.
      * right. by apply IH3s.
      * right. left.
      * right. right. by apply IH1.
    + change (visited delivers (a :: b :: l))
        with (a :: if delivers a then visited delivers (b :: l)
                   else visited delivers l).
      intros [-> | Hx]%elem_of_cons; [left |]. right.
      destruct (delivers a); [by apply IH3v |]. right. by apply IH2.
Qed.

(** Behind a connection that was tried and failed: the next one is not
    tried and stays; the failed one is gone. *)
Lemma swept_visited_skip (delivers : A → bool) (n : nat) :
  ∀ l pre dead next post,
    (length l ≤ n) → NoDup l → l = pre ++ dead :: next :: post →
    dead ∈ visited delivers l → delivers dead = false →
    (next ∉ visited delivers l) ∧ (next ∈ swept delivers l).
Proof.
  induction n as [| n IH]; intros l pre dead next post Hlen Hnd -> Hv Hd.
  { rewrite length_app in Hlen. simpl in Hlen. lia. }
  destruct (swept_visited_subseteq delivers post) as (_ & Hvis_post & _).
  destruct pre as [| x pre].
  - (* the failed connection is at the head *)
    simpl. rewrite Hd. simpl in Hnd.
    apply NoDup_cons in Hnd as [Hdead Hnd]. apply NoDup_cons in Hnd as [Hnext _].
    split; [| left].
    intros [-> | Hin]%elem_of_cons; [apply Hdead; left |].
    by apply Hnext, Hvis_post.
  - simpl in Hnd, Hv, Hlen |- *.
    apply NoDup_cons in Hnd as [Hx Hnd].
    assert (dead ≠ x) as Hdx.
    { intros ->. apply Hx, elem_of_app. right. left. }
    assert (next ≠ x) as Hnx.
    { intros ->. apply Hx, elem_of_app. right. right. left. }
    apply elem_of_cons in Hv as [-> | Hv]; [done |].
    destruct (delivers x).
    + destruct (IH (pre ++ dead :: next :: post) pre dead next post) as [H1 H2];
        try done; [lia |].
      split; [| by right]. by intros [-> | Hin]%elem_of_cons.
    + destruct pre as [| y pre]; simpl in *.
      * (* the connection behind [x] is stepped over, so it was not tried *)
        exfalso. apply NoDup_cons in Hnd as [Hdead _].
        destruct (swept_visited_subseteq delivers (next :: post)) as (_ & Hsub & _).
        by apply Hdead, Hsub.
      * apply NoDup_cons in Hnd as [Hy Hnd].
        destruct (IH (pre ++ dead :: next :: post) pre dead next post) as [H1 H2];
          try done; [lia |].
        split; [| by right]. by intros [-> | Hin]%elem_of_cons.
Qed.

(** A connection that was tried and failed is gone. *)
Lemma swept_visited_dead (delivers : A → bool) (n : nat) :
  ∀ l dead,
    (length l ≤ n) → NoDup l →
    dead ∈ visited delivers l → delivers dead = false →
    dead ∉ swept delivers l.
Proof.
  induction n as [| n IH]; intros l dead Hlen Hnd Hv Hd.
  { destruct l; [by apply elem_of_nil in Hv | simpl in Hlen; lia]. }
  destruct l as [| x l]; [by apply elem_of_nil in Hv |].
  simpl in Hlen. apply NoDup_cons in Hnd as [Hx Hnd].
  destruct (swept_visited_subseteq delivers l) as (Hs & Hvl & _).
  simpl in Hv |- *. destruct (delivers x) eqn:Hdx.
  - apply elem_of_cons in Hv as [-> | Hv]; [congruence |].
    intros [-> | Hin]%elem_of_cons; [by apply Hx, Hvl |].
    by apply (IH l dead ltac:(lia) Hnd Hv Hd).
  - destruct l as [| y l].
    + apply elem_of_cons in Hv as [-> | Hv]; [apply not_elem_of_nil |].
      by apply elem_of_nil in Hv.
    + apply NoDup_cons in Hnd as [Hy Hnd]. simpl in Hlen.
      destruct (swept_visited_subseteq delivers l) as (Hsl & Hvl' & _).
      apply elem_of_cons in Hv as [-> | Hv].
      * intros [-> | Hin]%elem_of_cons; [apply Hx; left |].
        apply Hx. right. by apply Hsl.
      * intros [-> | Hin]%elem_of_cons; [by apply Hy, Hvl' |].
        by apply (IH l dead ltac:(lia) Hnd Hv Hd).
Qed.

(** X24: a broadcast prunes dead connections only in part.  On a list of
    distinct connections (and with no other task changing the list
    meanwhile) the loop drops a connection on which [send_text] is called
    and fails, but the removal shifts the list under the iterator, so the
    connection right behind such a one is stepped over: [send_text] is not
    called on it and it stays in the list, dead or not.  No connection
    whose send would go through is ever removed. *)
Theorem broadcast_skips_after_removal (delivers : A → bool)
    (active_connections : list A) :
  NoDup active_connections →
  let remaining := (broadcast delivers active_connections).1 in
  let sent := (broadcast delivers active_connections).2 in
  remaining = swept delivers active_connections
  ∧ sent = visited delivers active_connections
  ∧ (∀ connection,
       connection ∈ active_connections → delivers connection = true →
       connection ∈ remaining)
  ∧ (∀ dead, dead ∈ sent → delivers dead = false → dead ∉ remaining)
  ∧ (∀ pre dead next post,
       active_connections = pre ++ dead :: next :: post →
       dead ∈ sent → delivers dead = false →
       (next ∉ sent) ∧ (next ∈ remaining)).
Proof.
  intros Hnd remaining sent.
  assert (broadcast delivers active_connections
          = (swept delivers active_connections,
             visited delivers active_connections)) as Heq.
  { unfold broadcast.
    apply (broadcast_loop_swept delivers _ [] active_connections); [done | lia]. }
  subst remaining sent. rewrite Heq. simpl.
  split; [done |]. split; [done |]. split; [apply swept_keeps_live |].
  split.
  - intros dead. by apply (swept_visited_dead delivers (length active_connections)).
  - intros pre dead next post Hl.
    by apply (swept_visited_skip delivers (length active_connections)
                active_connections pre dead next post).
Qed.

End dashboard.

Lemma broadcast_skips_after_removal_witness :
  let delivers := λ c : Z, bool_decide (c = 5%Z) in
  let active_connections := [1; 2; 3; 4; 5]%Z in
  let remaining := (Dashboard.broadcast delivers active_connections).1 in
  let sent := (Dashboard.broadcast delivers active_connections).2 in
  remaining = Dashboard.swept delivers active_connections
  ∧ sent = Dashboard.visited delivers active_connections
  ∧ (∀ connection,
       connection ∈ active_connections → delivers connection = true →
       connection ∈ remaining)
  ∧ (∀ dead, dead ∈ sent → delivers dead = false → dead ∉ remaining)
  ∧ (∀ pre dead next post,
       active_connections = pre ++ dead :: next :: post →
       dead ∈ sent → delivers dead = false →
       (next ∉ sent) ∧ (next ∈ remaining)).
Proof.
  apply (broadcast_skips_after_removal
           (λ c : Z, bool_decide (c = 5%Z)) [1; 2; 3; 4; 5]%Z).
  apply (bool_decide_unpack _). vm_compute. exact I.
Defined.

(** ** Timers that are never cancelled; detections that reach no relay *)

Section compositions.
Import PestManagementSystem.



(** A spray or a trap action. *)
Lemma bundle_is_response tier :
  Forall (λ action, ∃ d, action = PDict d
                         ∧ (dict_get d "type" VNone = VStr "spray_pesticide"
                            ∨ dict_get d "type" VNone = VStr "activate_trap"))
    (bundle tier).
Proof.
  destruct tier; repeat constructor; eexists; (split; [reflexivity |]);
    (by left) || (by right).
Qed.

Lemma process_refused fuel self :
  0%Z ∉ RelayController.relay_pins (relay_controller self) →
  1%Z ∉ RelayController.relay_pins (relay_controller self) →
  is_running self = true →
  Forall (λ action, ∃ d, action = PDict d
                         ∧ (dict_get d "type" VNone = VStr "spray_pesticide"
                            ∨ dict_get d "type" VNone = VStr "activate_trap"))
    (action_queue self) →
  length (action_queue self) ≤ fuel →
  after (_process_actions fuel self) = set_action_queue [] self.
Proof.
  revert self. induction fuel as [| fuel IH]; intros self H0 H1 Hrun Hq Hlen.
  - destruct self as [c rc mc sc q r]; simpl in *.
    destruct q; [done | simpl in Hlen; lia].
  - rewrite process_actions_turn by done.
    change (after (prefixed ?ev ?x)) with (after x).
    destruct (action_queue self) as [| action rest] eqn:Hqueue.
    + rewrite (turn_empty self Hqueue).
      change (after (Ret tt, self, [])) with self.
      apply IH; try done; rewrite Hqueue; [done | simpl; lia].
    + apply Forall_cons in Hq as [(d & -> & Hty) Hrest].
      rewrite (turn_pops self (PDict d) rest Hqueue).
      destruct (execute_response_refused (set_action_queue rest self) d)
        as (ev & -> & _); [by destruct self.. | done |].
      change (after (Ret tt, ?s, ?ev)) with s.
      rewrite IH; [by destruct self | by destruct self.. | |].
      * by destruct self.
      * destruct self; simpl in *. lia.
Qed.

(** X26: on a controller where 0 and 1 are not configured pins, as with the
    default pins 18 to 21, a detection never reaches a relay: after
    [trigger_pest_response] on a running system with an empty queue,
    whatever the confidence, and the two turns (or more) the worker needs
    for the bundle, the system is exactly as it was before the detection;
    all that is left of it is log records. *)
Theorem detection_reaches_no_relay (self : t) (pest_type : value)
    (confidence : float) (location : value * value) (fuel : nat) :
  0%Z ∉ RelayController.relay_pins (relay_controller self) →
  1%Z ∉ RelayController.relay_pins (relay_controller self) →
  is_running self = true → action_queue self = [] → 2 ≤ fuel →
  after (_process_actions fuel
           (after (trigger_pest_response pest_type confidence location self)))
  = self.
Proof.
  intros H0 H1 Hrun Hq Hfuel.
  rewrite trigger_pest_response_classify, Hq.
  change (after (Ret tt, ?s, ?ev)) with s.
  rewrite process_refused; try done.
  - destruct self; simpl in *. by subst.
  - apply bundle_is_response.
  - simpl. destruct (classify _ _); simpl; lia.
Qed.

Lemma detection_reaches_no_relay_witness :
  after (_process_actions 2
           (after (trigger_pest_response (VStr "aphid") 0x1.b333333333333p-1
                     (VInt 100, VInt 200) (running_system []))))
  = running_system [].
Proof.
  apply (detection_reaches_no_relay (running_system []) (VStr "aphid")
           0x1.b333333333333p-1 (VInt 100, VInt 200) 2).
  - apply (bool_decide_unpack _). vm_compute. exact I.
  - apply (bool_decide_unpack _). vm_compute. exact I.
  - reflexivity.
  - reflexivity.
  - lia.
Defined.

End compositions.
